(** * LocalChat: the retrieval pipeline of [src/services/ragService.ts]

    A shallow embedding of the document pipeline (file parsing dispatch,
    chunking, embedding, ranking, context assembly) and the properties its
    specification states about it.

    JavaScript strings are sequences of UTF-16 code units; they are modelled
    as [list N], so that [length], [substring] and [trim] count and cut
    exactly as the engine does.  JavaScript numbers that hold sizes, indices
    and counts are modelled as [Z]; embedding vectors and similarity scores
    are IEEE-754 doubles, modelled as primitive floats. *)

From Stdlib Require Import ZArith NArith List Lia Bool String Ascii.
From Stdlib Require Import Sorted Permutation DecimalString.
From Stdlib Require DecimalPos DecimalZ.
From Stdlib Require Import Floats.
From stdpp Require Import base list gmap.

Local Open Scope Z_scope.

(** ** JavaScript strings and arrays *)

Abbreviation jsstring := (list N).

Module JS.

(** An ASCII literal as a JavaScript string. *)
Definition str (s : string) : jsstring :=
  map N_of_ascii (list_ascii_of_string s).

(** [s.length] *)
Definition len {A} (l : list A) : Z := Z.of_nat (length l).

(** [c.repeat(n)] for a one-unit string. *)
Definition repeatUnit (c : N) (n : Z) : jsstring := replicate (Z.to_nat n) c.

(** Truthiness of a string: non-empty. *)
Definition truthy (s : jsstring) : bool :=
  match s with [] => false | _ => true end.

(** [a || b] on strings. *)
Definition orElse (a b : jsstring) : jsstring := if truthy a then a else b.

(** WhiteSpace and LineTerminator code units: what [trim] strips and what
    the regular expression class [\s] matches. *)
Definition isWhiteSpace (c : N) : bool :=
  ((9 <=? c) && (c <=? 13) || (c =? 32) || (c =? 160) || (c =? 5760)
   || (8192 <=? c) && (c <=? 8202) || (c =? 8232) || (c =? 8233)
   || (c =? 8239) || (c =? 8287) || (c =? 12288) || (c =? 65279))%N.

Fixpoint trimStart (s : jsstring) : jsstring :=
  match s with
  | c :: s' => if isWhiteSpace c then trimStart s' else s
  | [] => []
  end.

Definition trimEnd (s : jsstring) : jsstring := rev (trimStart (rev s)).

(** [s.trim()] *)
Definition trim (s : jsstring) : jsstring := trimEnd (trimStart s).

(** [s.split(re)] for a regular expression [[...]+] or [\s+] that matches
    maximal non-empty runs of the units satisfying [sep]: the pieces
    between the runs, empty pieces at both ends included. *)
Fixpoint splitRunsAux (sep : N → bool) (inRun : bool) (cur : jsstring)
    (s : jsstring) : list jsstring :=
  match s with
  | [] => [rev cur]
  | c :: s' =>
      if sep c then
        if inRun then splitRunsAux sep true cur s'
        else rev cur :: splitRunsAux sep true [] s'
      else splitRunsAux sep false (c :: cur) s'
  end.

Definition splitRuns (sep : N → bool) (s : jsstring) : list jsstring :=
  splitRunsAux sep false [] s.

(** [s.split(c)] for a one-unit separator string: every occurrence cuts. *)
Fixpoint splitUnit (sep : N) (s : jsstring) : list jsstring :=
  match s with
  | [] => [[]]
  | c :: s' =>
      if (c =? sep)%N then [] :: splitUnit sep s'
      else match splitUnit sep s' with
           | w :: ws => (c :: w) :: ws
           | [] => [[c]]
           end
  end.

(** [words.join(c)] for a one-unit separator string. *)
Fixpoint join (sep : N) (ws : list jsstring) : jsstring :=
  match ws with
  | [] => []
  | [w] => w
  | w :: ws' => w ++ sep :: join sep ws'
  end.

(** [arr.slice(start)]: a negative start counts from the end. *)
Definition sliceFrom {A} (start : Z) (l : list A) : list A :=
  if start <? 0 then drop (Z.to_nat (Z.max (len l + start) 0)) l
  else drop (Z.to_nat (Z.min start (len l))) l.

(** [arr.slice(0, end)]: a negative end counts from the end. *)
Definition sliceTo {A} (stop : Z) (l : list A) : list A :=
  if stop <? 0 then take (Z.to_nat (Z.max (len l + stop) 0)) l
  else take (Z.to_nat (Z.min stop (len l))) l.

(** [s.substring(0, end)]: a negative end is taken as 0, one beyond the
    length as the length. *)
Definition substringTo (stop : Z) (s : jsstring) : jsstring :=
  take (Z.to_nat (Z.min (Z.max stop 0) (len s))) s.

(** [s.endsWith(t)] *)
Definition endsWith (t s : jsstring) : bool :=
  bool_decide (drop (length s - length t) s = t) && (length t <=? length s)%nat.

(** [s.startsWith(t)] *)
Definition startsWith (t s : jsstring) : bool :=
  bool_decide (take (length t) s = t).

(** [String(n)] for an integer. *)
Definition ofInt (n : Z) : jsstring :=
  str (DecimalString.NilZero.string_of_int (Z.to_int n)).

Definition space : N := 32.
Definition newline : N := 10.
Definition quote : N := 34.

#[global] Arguments str : simpl never.
#[global] Arguments ofInt : simpl never.
#[global] Arguments repeatUnit : simpl never.

End JS.

Import JS.

(** ** The chunker *)

(** The units the sentence splitter [/[.!?]+/] matches. *)
Definition isSentenceEnd (c : N) : bool := ((c =? 46) || (c =? 33) || (c =? 63))%N.

(** [text.split(/[.!?]+/).filter(s => s.trim().length > 0)] *)
Definition sentencesOf (text : jsstring) : list jsstring :=
  List.filter (λ s, 0 <? len (trim s)) (splitRuns isSentenceEnd text).

(** [words.slice(-Math.floor(overlap / 5))] *)
Definition overlapWords (overlap : Z) (words : list jsstring) : list jsstring :=
  sliceFrom (- (overlap / 5)) words.

(** The text carried over from a flushed chunk into the next one. *)
Definition overlapText (overlap : Z) (currentChunk : jsstring) : jsstring :=
  join space (overlapWords overlap (splitUnit space currentChunk)).

(** One iteration of the loop over the sentences; the state is the array
    [chunks] and the working string [currentChunk]. *)
Definition chunkStep (chunkSize overlap : Z)
    (st : list jsstring * jsstring) (sentence : jsstring)
    : list jsstring * jsstring :=
  let '(chunks, currentChunk) := st in
  let trimmedSentence := trim sentence in
  if (len (currentChunk ++ trimmedSentence) >? chunkSize) && (len currentChunk >? 0)
  then (chunks ++ [trim currentChunk],
        overlapText overlap currentChunk ++ space :: trimmedSentence)
  else (chunks,
        currentChunk ++ (if truthy currentChunk then str ". " else []) ++ trimmedSentence).

Definition chunkLoop (chunkSize overlap : Z) (sentences : list jsstring)
    (st : list jsstring * jsstring) : list jsstring * jsstring :=
  fold_left (chunkStep chunkSize overlap) sentences st.

Definition chunkText (text : jsstring) (chunkSize overlap : Z) : list jsstring :=
  let '(chunks, currentChunk) :=
    chunkLoop chunkSize overlap (sentencesOf text) ([], []) in
  if 0 <? len (trim currentChunk) then chunks ++ [trim currentChunk] else chunks.

(** The defaults of [chunkText] and the arguments [uploadDocument] passes. *)
Definition defaultChunkSize : Z := 500.
Definition defaultOverlap : Z := 50.
Definition uploadChunkSize : Z := 800.
Definition uploadOverlap : Z := 100.

(** ** Results, the world and the outside *)

(** The outcome of a call that can throw: a thrown [Error] carries its
    message. *)
Inductive result (A : Type) : Type :=
  | Ok (a : A)
  | Throw (message : jsstring).
Arguments Ok {A} a.
Arguments Throw {A} message.

Definition isOk {A} (r : result A) : bool :=
  match r with Ok _ => true | Throw _ => false end.

(** [number[]]: an embedding vector. *)
Abbreviation vector := (list float).

(** [metadata]: the declared optional fields, and the three that
    [uploadDocument] and [searchDocuments] add through [as any]. *)
Record Metadata : Type := mkMetadata {
  page : option Z;
  section : option jsstring;
  chunkIndex : option Z;
  similarity : option float;
  documentName : option jsstring
}.

Record DocumentChunk : Type := mkChunk {
  chunkId : jsstring;
  documentId : jsstring;
  chunkContent : jsstring;
  embedding : option vector;
  metadata : Metadata
}.

Record Document : Type := mkDocument {
  docId : jsstring;
  docName : jsstring;
  docType : jsstring;
  docSize : Z;
  uploadedAt : jsstring;
  docContent : jsstring;
  chunks : list DocumentChunk
}.

(** The module state: the [documents] store of localforage and the cached
    answer of [checkEmbeddingModel] ([None] is [null]). *)
Record World : Type := mkWorld {
  documentsStore : gmap (list N) Document;
  embeddingModelAvailable : option bool
}.

(** What [GET /api/tags] does: the request fails, the response is not ok,
    or it lists the names of the installed models. *)
Inductive TagsResponse : Type :=
  | TagsUnreachable
  | TagsNotOk
  | TagsModels (names : list jsstring).

(** What the outside does during one operation.  [embeddingRequest k text]
    is the outcome of the [k]-th call of [generateEmbedding] (the POST to
    [/api/embeddings], rejected when the response is not ok);
    [iterateFailure k] is the error, if any, of the [k]-th
    [documentsStore.iterate]; [setItemFailure] that of [setItem]. *)
Record Outside : Type := mkOutside {
  tagsRequest : TagsResponse;
  embeddingRequest : nat → jsstring → result vector;
  iterateFailure : nat → option jsstring;
  setItemFailure : option jsstring;
  dateNow : Z;
  randomSuffix : jsstring;
  nowISO : jsstring
}.

(** The same outside after one more [iterate]. *)
Definition afterIterate (o : Outside) : Outside :=
  mkOutside (tagsRequest o) (embeddingRequest o)
    (λ k, iterateFailure o (S k)) (setItemFailure o)
    (dateNow o) (randomSuffix o) (nowISO o).

(** The built-ins of the engine that depend on Unicode tables or on date
    parsing: [s.toLowerCase()], the canonicalization of a code unit under
    the [i] flag of a regular expression, [new Date(s).getTime()]. *)
Class Engine : Type := mkEngine {
  toLowerCase : jsstring → jsstring;
  canonicalize : N → N;
  dateTime : jsstring → float
}.

(** Stateful, fallible computations over the world. *)
Definition M (A : Type) : Type := World → result A * World.

Definition ret {A} (a : A) : M A := λ w, (Ok a, w).
Definition bind {A B} (m : M A) (k : A → M B) : M B :=
  λ w, match m w with
       | (Ok a, w') => k a w'
       | (Throw e, w') => (Throw e, w')
       end.
(** [try { m } catch (error) { h(error) }] *)
Definition tryCatch {A} (m : M A) (h : jsstring → M A) : M A :=
  λ w, match m w with
       | (Ok a, w') => (Ok a, w')
       | (Throw e, w') => h e w'
       end.
Definition liftResult {A} (r : result A) : M A := λ w, (r, w).

#[global] Instance M_ret : MRet M := @ret.
#[global] Instance M_bind : MBind M := λ A B k m, bind m k.

(** ** Sorting as [Array.prototype.sort] does

    The comparator's number is read by its sign, [NaN] as [+0].  The sort
    is stable, which fixes the outcome for a consistent comparator.  For an
    inconsistent one (a comparator that meets [NaN]) the order is left to
    the engine; the model is the stable insertion sort: every element is
    put in front of the sorted rest and moves behind the elements it has to
    follow.  An array in which no comparison asks for a move is left as it
    is, which is also what the run detection of V8 makes of it. *)
Section Sort.
Context {A : Type} (compare : A → A → comparison).

Fixpoint sortInsert (x : A) (l : list A) : list A :=
  match l with
  | [] => [x]
  | y :: l' =>
      match compare x y with
      | Gt => y :: sortInsert x l'
      | _ => x :: y :: l'
      end
  end.

Fixpoint jsSort (l : list A) : list A :=
  match l with
  | [] => []
  | x :: l' => sortInsert x (jsSort l')
  end.
End Sort.

(** The sign of a comparator's result. *)
Definition signOfFloat (x : float) : comparison :=
  if (x <? 0)%float then Lt else if (0 <? x)%float then Gt else Eq.

Definition signOfZ (x : Z) : comparison := x ?= 0.

(** ** The document store *)

(** The comparator of [getAllDocuments]: newest upload first. *)
Definition byUploadTime `{Engine} (a b : Document) : comparison :=
  signOfFloat (dateTime (uploadedAt b) - dateTime (uploadedAt a))%float.

(** What [getAllDocuments] yields when the store can be iterated. *)
Definition storedDocuments `{Engine} (w : World) : list Document :=
  jsSort byUploadTime (map_to_list (documentsStore w)).*2.

(** [getAllDocuments] *)
Definition getAllDocuments `{Engine} (o : Outside) : M (list Document) :=
  λ w, match iterateFailure o 0%nat with
       | Some e => (Throw e, w)
       | None => (Ok (storedDocuments w), w)
       end.

Definition setItem (o : Outside) (key : jsstring) (value : Document) : M unit :=
  λ w, match setItemFailure o with
       | Some e => (Throw e, w)
       | None => (Ok tt, mkWorld (<[key := value]> (documentsStore w))
                                 (embeddingModelAvailable w))
       end.

(** ** The embedding client *)

Definition EMBEDDING_MODEL : jsstring := str "nomic-embed-text".

Definition checkEmbeddingModel (o : Outside) : M bool :=
  λ w, match embeddingModelAvailable w with
       | Some available => (Ok available, w)
       | None =>
           let answer :=
             match tagsRequest o with
             | TagsUnreachable => false
             | TagsNotOk => false
             | TagsModels names =>
                 existsb (λ name, bool_decide (name = EMBEDDING_MODEL)
                                  || startsWith (EMBEDDING_MODEL ++ str ":") name)
                         names
             end in
           (Ok answer, mkWorld (documentsStore w) (Some answer))
       end.

Definition generateEmbedding (o : Outside) (k : nat) (text : jsstring) : M vector :=
  liftResult (embeddingRequest o k text).

(** ** Files and the per-format readers

    The readers are third-party libraries applied to the bytes of the file;
    a file carries what each of them makes of it. *)

(** An element of [textContent.items]: a string, or an object whose [str]
    or [text] may be present. *)
Inductive TextItem : Type :=
  | ItemString (s : jsstring)
  | ItemObject (itemStr itemTextField : option jsstring).

(** A page of a loaded PDF: the outcome of [getTextContent], whether the
    canvas yields a 2d context, and the outcome of rendering the page and
    running [Tesseract.recognize] on it. *)
Record PDFPage : Type := mkPage {
  textContent : result (list TextItem);
  canvasContext : bool;
  recognized : result jsstring
}.

Record File : Type := mkFile {
  fileName : jsstring;
  fileType : jsstring;
  fileSize : Z;
  fileText : result jsstring;
  pdfDocument : result (list PDFPage);
  docxRawText : result jsstring;
  workbook : result (list (jsstring * jsstring))
}.

Inductive Format : Type := PlainText | PDF | DOCX | Excel.

(** What a parse lets the outside observe: the status lines handed to
    [onProgress], the calls of [Tesseract.recognize], and the reader that
    [parseFile] hands the file to. *)
Inductive Event : Type :=
  | Progress (status : jsstring)
  | Recognize (pageNum : Z)
  | Reader (format : Format).

#[global] Instance Format_eq_dec : EqDecision Format.
Proof. solve_decision. Defined.
#[global] Instance Event_eq_dec : EqDecision Event.
Proof. solve_decision. Defined.

(** [parseExcel] *)
Definition parseExcel (file : File) : result jsstring :=
  match workbook file with
  | Throw _ => Throw (str "Failed to parse Excel file")
  | Ok sheets =>
      let fullText :=
        fold_left (λ fullText '(sheetName, csv),
                     fullText ++ newline :: str "--- Sheet: " ++ sheetName
                       ++ str " ---" ++ newline :: csv ++ [newline])
                  sheets [] in
      if len (trim fullText) <? 10 then Throw (str "Failed to parse Excel file")
      else Ok (trim fullText)
  end.

(** [parseDOCX] *)
Definition parseDOCX (file : File) : result jsstring :=
  match docxRawText file with
  | Throw _ =>
      Throw (str "Failed to parse DOCX file. Please ensure it's a valid Word document.")
  | Ok value =>
      if negb (truthy value) || (len (trim value) <? 10)
      then Throw (str "Failed to parse DOCX file. Please ensure it's a valid Word document.")
      else Ok value
  end.

(** The callback of [items.map] in [parsePDF]. *)
Definition itemText (item : TextItem) : jsstring :=
  match item with
  | ItemString s => s
  | ItemObject itemStr itemTextField =>
      let s := default [] itemStr in
      let t := default [] itemTextField in
      if truthy s then s else if truthy t then t else []
  end.

Definition pageTextOf (items : list TextItem) : jsstring :=
  join space (List.filter (λ text, 0 <? len (trim text)) (map itemText items)).

(** The first loop of [parsePDF]: direct text extraction, page by page. *)
Fixpoint extractText (pages : list PDFPage) (fullText : jsstring) : result jsstring :=
  match pages with
  | [] => Ok fullText
  | page :: rest =>
      match textContent page with
      | Throw e => Throw e
      | Ok items =>
          let pageText := pageTextOf items in
          extractText rest
            (if truthy (trim pageText) then fullText ++ pageText ++ [newline; newline]
             else fullText)
      end
  end.

Definition OCR_PAGE_LIMIT : Z := 10.

(** The second loop of [parsePDF]: [count] iterations remain, the next one
    for page [pageNum]. *)
Fixpoint ocrPages (pdf : list PDFPage) (count : nat) (pageNum : Z)
    (ocrText : jsstring) (log : list Event) : result jsstring * list Event :=
  match count with
  | O => (Ok ocrText, log)
  | S count' =>
      let log := log ++ [Progress (str "OCR processing page " ++ ofInt pageNum ++ str "...")] in
      match pdf !! Z.to_nat (pageNum - 1) with
      | None => (Throw (str "Invalid page request"), log)
      | Some page =>
          if negb (canvasContext page) then ocrPages pdf count' (pageNum + 1) ocrText log
          else
            match recognized page with
            | Throw e => (Throw e, log ++ [Recognize pageNum])
            | Ok text =>
                ocrPages pdf count' (pageNum + 1)
                  (ocrText ++ text ++ [newline; newline]) (log ++ [Recognize pageNum])
            end
      end
  end.

Definition MIN_TEXT_LENGTH : Z := 10.

Definition pdfFailure (message : jsstring) : jsstring :=
  str "Failed to parse PDF: " ++ message.

Definition scannedStatus : jsstring := str "Scanned PDF detected, using OCR...".

(** [parsePDF] *)
Definition parsePDF (file : File) : result jsstring * list Event :=
  let log := [Progress (str "Loading PDF...")] in
  match pdfDocument file with
  | Throw e => (Throw (pdfFailure e), log)
  | Ok pdf =>
      let log := log ++ [Progress (str "Extracting text...")] in
      match extractText pdf [] with
      | Throw e => (Throw (pdfFailure e), log)
      | Ok fullText =>
          if len (trim fullText) <? MIN_TEXT_LENGTH then
            let log := log ++ [Progress scannedStatus] in
            match ocrPages pdf (Z.to_nat (Z.min (len pdf) OCR_PAGE_LIMIT)) 1 [] log with
            | (Throw e, log) => (Throw (pdfFailure e), log)
            | (Ok ocrText, log) =>
                if len (trim ocrText) <? MIN_TEXT_LENGTH
                then (Throw (pdfFailure (str "Could not extract text from PDF using OCR")), log)
                else (Ok (trim ocrText), log)
            end
          else (Ok (trim fullText), log)
      end
  end.

Definition MIME_TEXT : jsstring := str "text/plain".
Definition MIME_PDF : jsstring := str "application/pdf".
Definition MIME_DOCX : jsstring :=
  str "application/vnd.openxmlformats-officedocument.wordprocessingml.document".
Definition MIME_XLSX : jsstring :=
  str "application/vnd.openxmlformats-officedocument.spreadsheetml.sheet".
Definition MIME_XLS : jsstring := str "application/vnd.ms-excel".

Definition isTextFile (fileType fileName : jsstring) : bool :=
  bool_decide (fileType = MIME_TEXT)
  || endsWith (str ".txt") fileName || endsWith (str ".md") fileName.
Definition isPdfFile (fileType fileName : jsstring) : bool :=
  bool_decide (fileType = MIME_PDF) || endsWith (str ".pdf") fileName.
Definition isDocxFile (fileType fileName : jsstring) : bool :=
  bool_decide (fileType = MIME_DOCX) || endsWith (str ".docx") fileName.
Definition isExcelFile (fileType fileName : jsstring) : bool :=
  bool_decide (fileType = MIME_XLSX) || bool_decide (fileType = MIME_XLS)
  || endsWith (str ".xlsx") fileName || endsWith (str ".xls") fileName.

Definition unsupported (fileType fileName : jsstring) : jsstring :=
  str "Unsupported file type: " ++ orElse fileType fileName.

(** [parseFile]; the outer [catch] logs and rethrows. *)
Definition parseFile `{Engine} (file : File) : result jsstring * list Event :=
  let fileType := fileType file in
  let fileName := toLowerCase (fileName file) in
  if isTextFile fileType fileName then (fileText file, [Reader PlainText])
  else if isPdfFile fileType fileName then
    let '(r, log) := parsePDF file in (r, Reader PDF :: log)
  else if isDocxFile fileType fileName then (parseDOCX file, [Reader DOCX])
  else if isExcelFile fileType fileName then (parseExcel file, [Reader Excel])
  else (Throw (unsupported fileType fileName), []).

(** ** Uploading *)

(** The body of the loop over [textChunks], from index [i] on. *)
Fixpoint embedChunks (o : Outside) (useEmbeddings : bool) (documentId : jsstring)
    (textChunks : list jsstring) (i : nat) : list DocumentChunk :=
  match textChunks with
  | [] => []
  | chunkContent :: rest =>
      let meta := mkMetadata None None (Some (Z.of_nat i)) None None in
      let id := documentId ++ str "_chunk_" ++ ofInt (Z.of_nat i) in
      let bare := mkChunk id documentId chunkContent None meta in
      let chunk :=
        if useEmbeddings then
          match embeddingRequest o i chunkContent with
          | Ok embedding => mkChunk id documentId chunkContent (Some embedding) meta
          | Throw _ => bare
          end
        else bare in
      chunk :: embedChunks o useEmbeddings documentId rest (S i)
  end.

(** [uploadDocument]; the outer [catch] logs and rethrows. *)
Definition uploadDocument `{Engine} (o : Outside) (file : File) : M Document :=
  content ← liftResult (parseFile file).1;
  let textChunks := chunkText content uploadChunkSize uploadOverlap in
  let documentId := str "doc_" ++ ofInt (dateNow o) ++ str "_" ++ randomSuffix o in
  useEmbeddings ← checkEmbeddingModel o;
  let chunks := embedChunks o useEmbeddings documentId textChunks 0 in
  let document :=
    mkDocument documentId (fileName file) (fileType file) (fileSize file)
               (nowISO o) content chunks in
  _ ← setItem o documentId document;
  mret document.

(** ** Ranking *)

(** The loop of [cosineSimilarity] over two vectors of one length, from the
    running [dotProduct], [normA] and [normB]. *)
Fixpoint cosineSums (a b : vector) (acc : float * float * float) : float * float * float :=
  match a, b with
  | x :: a', y :: b' =>
      let '(dotProduct, normA, normB) := acc in
      cosineSums a' b' (dotProduct + x * y, normA + x * x, normB + y * y)%float
  | _, _ => acc
  end.

Definition cosineSimilarity (a b : vector) : float :=
  if negb (len a =? len b) then 0%float
  else
    let '(dotProduct, normA, normB) := cosineSums a b (0, 0, 0)%float in
    (dotProduct / (sqrt normA * sqrt normB))%float.

(** An entry of [scoredChunks]. *)
Record Scored (S : Type) : Type := mkScored {
  chunk : DocumentChunk;
  score : S;
  scoredDocName : jsstring
}.
Arguments mkScored {S} chunk score scoredDocName.
Arguments chunk {S} s.
Arguments score {S} s.
Arguments scoredDocName {S} s.

(** [documents.some(doc => doc.chunks.some(c => c.embedding))] *)
Definition hasEmbeddings (documents : list Document) : bool :=
  existsb (λ doc, existsb (λ c, bool_decide (is_Some (embedding c))) (chunks doc)) documents.

(** The nested loops of the vector branch. *)
Definition scoreByVector (queryEmbedding : vector) (documents : list Document)
    : list (Scored float) :=
  flat_map (λ doc,
    flat_map (λ c,
      match embedding c with
      | Some e => [mkScored c (cosineSimilarity queryEmbedding e) (docName doc)]
      | None => []
      end) (chunks doc)) documents.

(** The own properties of the [synonyms] object. *)
Definition synonyms : list (jsstring * list jsstring) :=
  [ (str "mac", map str ["apple"; "macbook"; "imac"; "macintosh"; "macos"]%string);
    (str "apple", map str ["mac"; "macbook"; "imac"; "iphone"; "ipad"]%string);
    (str "macbook", map str ["mac"; "apple"; "laptop"]%string);
    (str "dell", map str ["latitude"; "optiplex"; "precision"; "xps"]%string);
    (str "laptop", map str ["notebook"; "portable"; "macbook"; "latitude"]%string);
    (str "computer", map str ["pc"; "machine"; "workstation"; "desktop"; "laptop"]%string);
    (str "specs", map str ["specifications"; "spec"; "configuration"; "config"; "requirements"]%string);
    (str "specifications", map str ["specs"; "spec"; "configuration"; "config"]%string);
    (str "price", map str ["cost"; "pricing"; "amount"; "fee"]%string);
    (str "cost", map str ["price"; "pricing"; "amount"; "expense"]%string) ].

(** [synonyms[word]]: an own property, a member inherited from
    [Object.prototype] (truthy, and without a [forEach]), or [undefined]. *)
Inductive Property : Type :=
  | Own (values : list jsstring)
  | Inherited
  | Undefined.

(** The names [Object.prototype] answers to.  The words looked up are
    lower-cased, so in practice only [constructor] and [__proto__] are
    hit. *)
Definition inheritedNames : list jsstring :=
  map str [ "constructor"; "__proto__"; "hasOwnProperty"; "isPrototypeOf";
            "propertyIsEnumerable"; "toLocaleString"; "toString"; "valueOf";
            "__defineGetter__"; "__defineSetter__"; "__lookupGetter__";
            "__lookupSetter__" ]%string.

Fixpoint assoc (key : jsstring) (table : list (jsstring * list jsstring))
    : option (list jsstring) :=
  match table with
  | [] => None
  | (k, v) :: table' => if bool_decide (k = key) then Some v else assoc key table'
  end.

Definition synonymsAt (word : jsstring) : Property :=
  match assoc word synonyms with
  | Some values => Own values
  | None => if bool_decide (word ∈ inheritedNames) then Inherited else Undefined
  end.

(** [expanded.add(x)] on the insertion-ordered [Set]. *)
Definition setAdd (expanded : list jsstring) (x : jsstring) : list jsstring :=
  if bool_decide (x ∈ expanded) then expanded else expanded ++ [x].

(** The callback of [words.forEach] in [expandQueryTerms]. *)
Definition addSynonyms (acc : result (list jsstring)) (word : jsstring)
    : result (list jsstring) :=
  match acc with
  | Throw e => Throw e
  | Ok expanded =>
      match synonymsAt word with
      | Own values => Ok (fold_left setAdd values expanded)
      | Inherited => Throw (str "synonyms[word].forEach is not a function")
      | Undefined => Ok expanded
      end
  end.

Definition queryWords `{Engine} (query : jsstring) : list jsstring :=
  List.filter (λ w, 2 <? len w) (splitRuns isWhiteSpace (toLowerCase query)).

Definition expandQueryTerms `{Engine} (query : jsstring) : result (list jsstring) :=
  let words := queryWords query in
  fold_left addSynonyms words (Ok (fold_left setAdd words [])).

(** Whether [term] matches at the head of [s] under the [i] flag. *)
Fixpoint matchesHere `{Engine} (term s : jsstring) : bool :=
  match term, s with
  | [], _ => true
  | t :: term', c :: s' => (canonicalize t =? canonicalize c)%N && matchesHere term' s'
  | _ :: _, [] => false
  end.

(** [(s.match(new RegExp(escapeRegex(term), 'gi')) || []).length]: the
    escaped pattern matches [term] literally, the scan goes left to right
    and resumes after each match; [skip] units of the last match remain.
    The empty pattern matches once at every position, the end included. *)
Fixpoint countMatches `{Engine} (term : jsstring) (skip : nat) (s : jsstring) : Z :=
  match s with
  | [] => match term with [] => 1 | _ => 0 end
  | _ :: s' =>
      match skip with
      | S skip' => countMatches term skip' s'
      | O =>
          if matchesHere term s
          then 1 + countMatches term (length term - 1) s'
          else countMatches term 0 s'
      end
  end.

(** The keyword score of a chunk: the matches of every term, summed. *)
Definition keywordScore `{Engine} (expandedTerms : list jsstring) (content : jsstring) : Z :=
  let chunkText := toLowerCase content in
  fold_left (λ score term, score + countMatches term 0 chunkText) expandedTerms 0.

(** The nested loops of the keyword branch. *)
Definition scoreByKeyword `{Engine} (expandedTerms : list jsstring)
    (documents : list Document) : list (Scored Z) :=
  flat_map (λ doc,
    flat_map (λ c,
      let score := keywordScore expandedTerms (chunkContent c) in
      if score >? 0 then [mkScored c score (docName doc)] else [])
    (chunks doc)) documents.

(** A count as a double. *)
Definition numberOfZ (n : Z) : float := PrimFloat.of_uint63 (Uint63.of_Z n).

(** [{ ...chunk, metadata: { ...chunk.metadata, similarity, documentName } }] *)
Definition withSimilarity (c : DocumentChunk) (sim : float) (name : jsstring)
    : DocumentChunk :=
  let m := metadata c in
  mkChunk (chunkId c) (documentId c) (chunkContent c) (embedding c)
          (mkMetadata (page m) (section m) (chunkIndex m) (Some sim) (Some name)).

(** The callbacks of [.map] that turn the ranked entries into the chunks
    returned: the score itself in the vector branch, a tenth of the count
    in the keyword branch. *)
Definition rankedByVector (ranked : list (Scored float)) : list DocumentChunk :=
  map (λ item, withSimilarity (chunk item) (score item) (scoredDocName item)) ranked.
Definition rankedByKeyword (ranked : list (Scored Z)) : list DocumentChunk :=
  map (λ item, withSimilarity (chunk item) (numberOfZ (score item) / 10)%float
                              (scoredDocName item)) ranked.

Definition byScoreFloat (a b : Scored float) : comparison :=
  signOfFloat (score b - score a)%float.
Definition byScoreZ (a b : Scored Z) : comparison :=
  signOfZ (score b - score a).

(** The body of the [try] block of [searchDocuments]. *)
Definition searchBody `{Engine} (o : Outside) (query : jsstring) (topK : Z)
    : M (list DocumentChunk) :=
  documents ← getAllDocuments o;
  if hasEmbeddings documents then
    queryEmbedding ← generateEmbedding o 0 query;
    let scoredChunks := jsSort byScoreFloat (scoreByVector queryEmbedding documents) in
    mret (rankedByVector (sliceTo topK scoredChunks))
  else
    expandedTerms ← liftResult (expandQueryTerms query);
    let scoredChunks := jsSort byScoreZ (scoreByKeyword expandedTerms documents) in
    mret (rankedByKeyword (sliceTo topK scoredChunks)).

Definition searchDocuments `{Engine} (o : Outside) (query : jsstring) (topK : Z)
    : M (list DocumentChunk) :=
  tryCatch (searchBody o query topK) (λ _, mret []).

Definition defaultSearchTopK : Z := 5.

(** ** Assembling the context *)

Definition doubleBar : N := 9552.   (* U+2550, box drawings double horizontal *)
Definition lightBar : N := 9472.    (* U+2500, box drawings light horizontal *)
Definition hyphen : N := 45.
Definition targetEmoji : jsstring := [55356; 57263]%N.   (* U+1F3AF *)
Definition pageEmoji : jsstring := [55357; 56516]%N.     (* U+1F4C4 *)

Definition systemPrompt : jsstring :=
  join newline
    [ str "You are a document assistant. You MUST follow these rules EXACTLY:";
      [];
      str "STRICT RULES:";
      str "1. ONLY use information that appears EXACTLY in the document below";
      str "2. When answering, COPY the exact text from the document - do not paraphrase";
      str "3. If you cannot find the EXACT answer in the document, say "
        ++ quote :: str "I could not find this specific information in the document"
        ++ [quote];
      str "4. NEVER make up or infer information that is not explicitly written";
      str "5. NEVER mix information from different sections";
      str "6. Format your answer by quoting the relevant text directly";
      [];
      str "The most relevant sections are shown first below." ].

Definition relevantHeader : jsstring :=
  newline :: repeatUnit doubleBar 60 ++ [newline]
  ++ targetEmoji ++ str " MOST RELEVANT SECTIONS FOR YOUR QUESTION:" ++ [newline]
  ++ repeatUnit doubleBar 60 ++ [newline; newline].

(** The callback of [relevantChunks.forEach]; [index] counts from 0. *)
Definition relevantSection (index : Z) (c : DocumentChunk) : jsstring :=
  let docName := orElse (default [] (documentName (metadata c))) (str "Document") in
  str "[Section " ++ ofInt (index + 1) ++ str "] From " ++ quote :: docName
  ++ quote :: str ":" ++ [newline]
  ++ repeatUnit hyphen 40 ++ [newline]
  ++ chunkContent c ++ [newline; newline].

Fixpoint relevantSections (index : Z) (relevantChunks : list DocumentChunk) : jsstring :=
  match relevantChunks with
  | [] => []
  | c :: rest => relevantSection index c ++ relevantSections (index + 1) rest
  end.

(** PART 1 of the context. *)
Definition relevantPart (relevantChunks : list DocumentChunk) : jsstring :=
  if 0 <? len relevantChunks
  then relevantHeader ++ relevantSections 0 relevantChunks
  else [].

Definition fullHeader : jsstring :=
  newline :: repeatUnit doubleBar 60 ++ [newline]
  ++ pageEmoji ++ str " FULL DOCUMENT CONTENT (for additional context):" ++ [newline]
  ++ repeatUnit doubleBar 60 ++ [newline; newline].

Definition maxTotalLength : Z := 300000.
Definition MIN_REMAINING : Z := 1000.

Definition truncationNotice : jsstring :=
  newline :: str "[Additional document content truncated due to size]" ++ [newline].
Definition truncatedMarker : jsstring :=
  newline :: str "[... truncated ...]" ++ [newline].
Definition fileHeader (doc : Document) : jsstring :=
  newline :: str "FILE: " ++ docName doc ++ [newline]
  ++ repeatUnit lightBar 40 ++ [newline].

(** The loop over [allDocs] of PART 2, on the pair of [context] and
    [totalLength]; the first clause is the [break]. *)
Fixpoint appendDocuments (allDocs : list Document) (context : jsstring)
    (totalLength : Z) : jsstring * Z :=
  match allDocs with
  | [] => (context, totalLength)
  | doc :: rest =>
      let remainingSpace := maxTotalLength - totalLength in
      if remainingSpace <? MIN_REMAINING then (context ++ truncationNotice, totalLength)
      else
        let context := context ++ fileHeader doc in
        if len (docContent doc) <=? remainingSpace
        then appendDocuments rest (context ++ docContent doc ++ [newline])
                             (totalLength + len (docContent doc))
        else appendDocuments rest
               (context ++ substringTo (remainingSpace - 100) (docContent doc)
                        ++ truncatedMarker)
               maxTotalLength
  end.

(** The variable [context] when the loop is entered. *)
Definition contextBeforeDocuments (relevantChunks : list DocumentChunk) : jsstring :=
  relevantPart relevantChunks ++ fullHeader.

(** The variables [context] and [totalLength] when the loop is left. *)
Definition assembleContext (relevantChunks : list DocumentChunk)
    (allDocs : list Document) : jsstring * Z :=
  let context := contextBeforeDocuments relevantChunks in
  appendDocuments allDocs context (len context).

Definition questionBlock (query : jsstring) : jsstring :=
  repeatUnit doubleBar 60 ++ newline :: str "USER QUESTION: " ++ query
  ++ newline :: repeatUnit doubleBar 60.

Definition closingInstruction : jsstring :=
  str "IMPORTANT: Copy the EXACT text from the document that answers this question. Do not paraphrase or interpret:".

(** The template of [finalContext]. *)
Definition finalContext (query context : jsstring) : jsstring :=
  systemPrompt ++ [newline; newline] ++ context ++ [newline; newline]
  ++ questionBlock query ++ [newline; newline] ++ closingInstruction.

(** [buildRAGContext] *)
Definition buildRAGContext `{Engine} (o : Outside) (query : jsstring) (topK : Z)
    : M jsstring :=
  allDocs ← getAllDocuments o;
  if len allDocs =? 0 then mret query
  else
    relevantChunks ← searchDocuments (afterIterate o) query topK;
    mret (finalContext query (assembleContext relevantChunks allDocs).1).


(** ** A concrete engine for closed examples

    On strings of ASCII code units, [toLowerCase] maps [A]-[Z] to [a]-[z]
    and the [i] flag identifies a letter with its other case; dates are
    not parsed, every upload time reads as the same instant. *)
Definition asciiLower (c : N) : N := if ((65 <=? c) && (c <=? 90))%N then (c + 32)%N else c.
Definition asciiUpper (c : N) : N := if ((97 <=? c) && (c <=? 122))%N then (c - 32)%N else c.
Definition asciiEngine : Engine := mkEngine (map asciiLower) asciiUpper (λ _, 0%float).

(** An outside in which every request is refused and the store works. *)
Definition offline : Outside :=
  mkOutside TagsUnreachable (λ _ _, Throw (str "Embedding failed: ")) (λ _, None) None
            0 (str "x") (str "1970-01-01T00:00:00.000Z").

Definition emptyWorld : World := mkWorld ∅ None.

(** ** Sample data for closed examples *)

Definition plainMetadata : Metadata := mkMetadata None None None None None.

Definition sampleChunk (content : jsstring) (e : option vector) : DocumentChunk :=
  mkChunk (str "doc_1_x_chunk_0") (str "doc_1_x") content e plainMetadata.

(** A stored document of one chunk without an embedding. *)
Definition noteDocument : Document :=
  mkDocument (str "doc_1_x") (str "note.txt") (str "text/plain") 22
             (str "1970-01-01T00:00:00.000Z") (str "The dell laptop is new")
             [sampleChunk (str "The dell laptop is new") None].

Definition noteWorld : World := mkWorld {[ str "doc_1_x" := noteDocument ]} None.



(** A scanned PDF of twelve pages: no text items, and a recognizer that
    reads two words on every page. *)
Definition scannedPage : PDFPage := mkPage (Ok []) true (Ok (str "scanned words")).
Definition scannedFile : File :=
  mkFile (str "Scan.PDF") [] 4096 (Throw (str "not text"))
         (Ok (replicate 12 scannedPage)) (Throw (str "not a docx")) (Throw (str "not a workbook")).

(** A plain text file of two sentences. *)
Definition noteFile : File :=
  mkFile (str "note.txt") (str "text/plain") 28 (Ok (str "Hello world. This is a note."))
         (Throw (str "not a pdf")) (Throw (str "not a docx")) (Throw (str "not a workbook")).

(** An outside whose model is installed and whose embedding endpoint
    answers every call but the first. *)
Definition flaky : Outside :=
  mkOutside (TagsModels [str "llama3:latest"; str "nomic-embed-text:latest"])
            (λ k _, match k with O => Throw (str "Embedding failed: ") | _ => Ok [1; 0]%float end)
            (λ _, None) None 7 (str "abc") (str "1970-01-01T00:00:00.007Z").




(** A text of two short sentences. *)
Definition greeting : jsstring := str "Hi! How are you?".


(** ** Predicates of the statements *)

(** How the working string [currentChunk] of [chunkText] comes about: it is
    started by one sentence, or by the overlap of the string just flushed
    and one sentence, and it is extended by a sentence only when the budget
    check passes. *)
Inductive Built (chunkSize overlap : Z) (sentences : list jsstring) : jsstring → Prop :=
  | built_first s :
      s ∈ sentences → Built chunkSize overlap sentences (trim s)
  | built_overlap prev s :
      Built chunkSize overlap sentences prev → s ∈ sentences →
      chunkSize < len (prev ++ trim s) →
      Built chunkSize overlap sentences (overlapText overlap prev ++ space :: trim s)
  | built_append cur s :
      Built chunkSize overlap sentences cur → s ∈ sentences →
      len (cur ++ trim s) ≤ chunkSize →
      Built chunkSize overlap sentences (cur ++ str ". " ++ trim s).

(** The string starts with a unit that [trim] keeps. *)
Definition startsClean (s : jsstring) : Prop :=
  match s with
  | c :: _ => isWhiteSpace c = false
  | [] => False
  end.

(** The string ends with a unit that [trim] keeps. *)
Definition endsClean (s : jsstring) : Prop := startsClean (rev s).




(** The pages handed to [Tesseract.recognize], in order. *)
Definition recognizedPages (log : list Event) : list Z :=
  omap (λ e, match e with Recognize n => Some n | _ => None end) log.

(** The readers [parseFile] handed the file to, in order. *)
Definition readersCalled (log : list Event) : list Format :=
  omap (λ e, match e with Reader f => Some f | _ => None end) log.

(** The test [parseFile] makes for a format. *)
Definition matchesFormat (format : Format) (fileType fileName : jsstring) : bool :=
  match format with
  | PlainText => isTextFile fileType fileName
  | PDF => isPdfFile fileType fileName
  | DOCX => isDocxFile fileType fileName
  | Excel => isExcelFile fileType fileName
  end.

(** What the reader of a format returns for a file. *)
Definition readerOf (format : Format) (file : File) : result jsstring :=
  match format with
  | PlainText => fileText file
  | PDF => (parsePDF file).1
  | DOCX => parseDOCX file
  | Excel => parseExcel file
  end.

(** The dot product and the Euclidean norm in the words of the statement,
    summed from the left in double arithmetic. *)
Definition dotProductOf (a b : vector) : float :=
  fold_left (λ acc '(x, y), (acc + x * y)%float) (zip a b) 0%float.
Definition sumOfSquares (a : vector) : float :=
  fold_left (λ acc x, (acc + x * x)%float) a 0%float.
Definition euclideanNorm (a : vector) : float := sqrt (sumOfSquares a).

(** A vector of zeros, of either sign. *)
Definition allZeros (a : vector) : Prop := Forall (λ x, is_zero x = true) a.

(** A zero or a NaN, as a specification float. *)
Definition zeroOrNaN (f : spec_float) : bool :=
  match f with
  | S754_zero _ | S754_nan => true
  | _ => false
  end.

(** What [uploadDocument] stores in the [embedding] field of the chunk
    at index [i]. *)
Definition embeddingStored (o : Outside) (useEmbeddings : bool) (i : nat)
    (content : jsstring) : option vector :=
  if useEmbeddings then
    match embeddingRequest o i content with
    | Ok e => Some e
    | Throw _ => None
    end
  else None.



(** ** The other operations of the service *)

(** What the store does to [getItem], [removeItem] and [clear]: the error,
    if any. *)
Record StoreFaults : Type := mkStoreFaults {
  getItemFailure : option jsstring;
  removeItemFailure : option jsstring;
  clearFailure : option jsstring
}.

Definition noFaults : StoreFaults := mkStoreFaults None None None.

(** [getDocument]: [None] is [null]. *)
Definition getDocument (f : StoreFaults) (id : jsstring) : M (option Document) :=
  λ w, match getItemFailure f with
       | Some e => (Throw e, w)
       | None => (Ok (documentsStore w !! id), w)
       end.

(** [deleteDocument] *)
Definition deleteDocument (f : StoreFaults) (id : jsstring) : M unit :=
  λ w, match removeItemFailure f with
       | Some e => (Throw e, w)
       | None => (Ok tt, mkWorld (delete id (documentsStore w)) (embeddingModelAvailable w))
       end.

(** [clearAllDocuments] *)
Definition clearAllDocuments (f : StoreFaults) : M unit :=
  λ w, match clearFailure f with
       | Some e => (Throw e, w)
       | None => (Ok tt, mkWorld ∅ (embeddingModelAvailable w))
       end.

(** The units [escapeRegex] puts a backslash in front of:
    [. * + ? ^ $ { } ( ) | [ ] \]. *)
Definition isRegexSpecial (c : N) : bool :=
  bool_decide (c ∈ [46; 42; 43; 63; 94; 36; 123; 125; 40; 41; 124; 91; 93; 92]%N).

Definition backslash : N := 92.

(** [escapeRegex]: [str.replace(/[.*+?^${}()|[\]\\]/g, '\\$&')] *)
Definition escapeRegex (s : jsstring) : jsstring :=
  flat_map (λ c, if isRegexSpecial c then [backslash; c] else [c]) s.

(** [s.includes(t)] *)
Fixpoint includes (t s : jsstring) : bool :=
  startsWith t s
  || match s with
     | [] => false
     | _ :: s' => includes t s'
     end.

(** ** The extension check of the document manager before an upload
    ([DocumentManager.tsx], [handleFileSelect]) *)

Definition validExtensions : list jsstring :=
  map str [".txt"; ".md"; ".pdf"; ".docx"; ".xlsx"; ".xls"]%string.

(** [validExtensions.some(ext => file.name.toLowerCase().endsWith(ext))] *)
Definition hasValidExtension `{Engine} (name : jsstring) : bool :=
  existsb (λ ext, endsWith ext (toLowerCase name)) validExtensions.

(** ** The attachment service *)

Record Attachment : Type := mkAttachment {
  attId : jsstring;
  attName : jsstring;
  attType : jsstring;
  attSize : Z;
  attContent : jsstring;
  attUploadedAt : jsstring
}.

(** The callback of [attachments.forEach]; [index] counts from 0. *)
Definition attachmentSection (index : Z) (att : Attachment) : jsstring :=
  str "--- File " ++ ofInt (index + 1) ++ str ": " ++ attName att ++ str " ---"
  ++ newline :: attContent att ++ [newline; newline].

Fixpoint attachmentSections (index : Z) (attachments : list Attachment) : jsstring :=
  match attachments with
  | [] => []
  | att :: rest => attachmentSection index att ++ attachmentSections (index + 1) rest
  end.

Definition attachmentsHeader : jsstring :=
  str "Here are the attached files for context:" ++ [newline; newline].
Definition attachmentsRule : jsstring := str "---" ++ [newline; newline].
Definition attachmentsRequest : jsstring := str "Based on the above files, please answer: ".

(** [buildContextFromAttachments] *)
Definition buildContextFromAttachments (attachments : list Attachment)
    (query : jsstring) : jsstring :=
  if len attachments =? 0 then query
  else attachmentsHeader ++ attachmentSections 0 attachments
       ++ attachmentsRule ++ attachmentsRequest ++ query.

(** ** The model catalogue of the Ollama service *)

Definition isDigit (c : N) : bool := ((48 <=? c) && (c <=? 57))%N.

(** The units the pattern unit [b] matches under the [i] flag: [b] and
    [B]. *)
Definition isLetterB (c : N) : bool := ((c =? 98) || (c =? 66))%N.

(** The maximal run of digits at the head of a string, and what follows. *)
Fixpoint spanDigits (s : jsstring) : jsstring * jsstring :=
  match s with
  | c :: s' =>
      if isDigit c then let '(digits, rest) := spanDigits s' in (c :: digits, rest)
      else ([], s)
  | [] => ([], [])
  end.

(** [name.match(/(\d+)b/i)]: the group of the leftmost match.  At a start
    position the greedy [\d+] takes the whole run of digits; a shorter run
    is followed by a digit, never by [b], so the match at that position
    succeeds exactly when the run is followed by [b] or [B]. *)
Fixpoint matchParameters (name : jsstring) : option jsstring :=
  match name with
  | [] => None
  | c :: name' =>
      if isDigit c then
        match spanDigits name with
        | (digits, r :: _) => if isLetterB r then Some digits else matchParameters name'
        | (_, []) => matchParameters name'
        end
      else matchParameters name'
  end.

(** [extractParameters] *)
Definition extractParameters (name : jsstring) : jsstring :=
  match matchParameters name with
  | Some digits => digits ++ str "B"
  | None =>
      if includes (str "1b") name then str "1B"
      else if includes (str "3b") name then str "3B"
      else if includes (str "7b") name then str "7B"
      else if includes (str "13b") name then str "13B"
      else if includes (str "70b") name then str "70B"
      else str "Unknown"
  end.

(** [categorizModel]; an absent description is the empty string. *)
Definition categorizModel `{Engine} (name description : jsstring) : list jsstring :=
  let lowerName := toLowerCase name in
  let lowerDesc := toLowerCase description in
  let sizeTags :=
    if includes (str "1b") lowerName || includes (str "2b") lowerName
    then [str "small"; str "fast"]
    else if includes (str "70b") lowerName || includes (str "405b") lowerName
    then [str "large"; str "quality"]
    else [] in
  let typeTags :=
    if includes (str "code") lowerName || includes (str "code") lowerDesc
    then [str "code"; str "specialized"]
    else if includes (str "vision") lowerName || includes (str "vision") lowerDesc
    then [str "vision"; str "multimodal"]
    else if includes (str "embed") lowerName
    then [str "embedding"; str "specialized"]
    else [str "chat"; str "general"] in
  let recommendedTags :=
    if includes (str "llama3.2") lowerName || includes (str "mistral") lowerName
       || includes (str "phi3") lowerName
    then [str "recommended"]
    else [] in
  sizeTags ++ typeTags ++ recommendedTags.

(** ** Further predicates of the statements *)

(** [a] occurs in [l] as a contiguous part. *)
Definition Infix (a l : jsstring) : Prop := ∃ before after, l = before ++ a ++ after.

(** The strings of a list, with [sep] between them. *)
Fixpoint joinWith (sep : jsstring) (l : list jsstring) : jsstring :=
  match l with
  | [] => []
  | [x] => x
  | x :: l' => x ++ sep ++ joinWith sep l'
  end.

(** The pattern read back as a literal: a backslash makes the next unit
    stand for itself. *)
Fixpoint readEscaped (escaped : bool) (pattern : jsstring) : jsstring :=
  match pattern with
  | [] => []
  | c :: pattern' =>
      if escaped then c :: readEscaped false pattern'
      else if (c =? backslash)%N then readEscaped true pattern'
      else c :: readEscaped false pattern'
  end.

(** The lengths of the contents of the documents, summed. *)
Definition contentsLength (allDocs : list Document) : Z :=
  fold_right (λ doc total, len (docContent doc) + total) 0 allDocs.


(** What the loop of PART 2 appends for documents it does not cut. *)
Definition fullDocuments (allDocs : list Document) : jsstring :=
  flat_map (λ doc, fileHeader doc ++ docContent doc ++ [newline]) allDocs.


(** An image: a file of a type no reader takes. *)
Definition imageFile : File :=
  mkFile (str "photo.png") (str "image/png") 2048 (Throw (str "not text"))
         (Throw (str "not a pdf")) (Throw (str "not a docx")) (Throw (str "not a workbook")).

(** * Properties *)

(** ** Trimming *)

Lemma trimStart_clean s : startsClean s → trimStart s = s.
Proof. destruct s as [|c s]; simpl; [done|]. by intros ->. Qed.

Lemma trimStart_result s : trimStart s = [] ∨ startsClean (trimStart s).
Proof.
  induction s as [|c s IH]; simpl; [by left|].
  destruct (isWhiteSpace c) eqn:E; [exact IH|]. right. exact E.
Qed.

Lemma trimEnd_clean s : endsClean s → trimEnd s = s.
Proof.
  intros H. unfold trimEnd. rewrite trimStart_clean by exact H. apply rev_involutive.
Qed.

Lemma endsClean_app a b : endsClean b → endsClean (a ++ b).
Proof.
  unfold endsClean. rewrite rev_app_distr.
  destruct (rev b) as [|c r]; simpl; [done|]. done.
Qed.

Lemma trimEnd_result s : trimEnd s = [] ∨ endsClean (trimEnd s).
Proof.
  unfold trimEnd, endsClean. rewrite rev_involutive.
  destruct (trimStart_result (rev s)) as [-> | H]; [by left | by right].
Qed.

Lemma trimEnd_startsClean s : startsClean s → startsClean (trimEnd s).
Proof.
  unfold trimEnd. intros H.
  assert (G : ∀ r, startsClean (rev r) → startsClean (rev (trimStart r))).
  { induction r as [|c r IH]; simpl; [done|].
    destruct (isWhiteSpace c) eqn:E; [|done].
    intros Hs. apply IH. destruct (rev r) as [|d r'] eqn:Er; simpl in *; [congruence|done]. }
  apply G. by rewrite rev_involutive.
Qed.

Lemma trim_result s : trim s = [] ∨ (startsClean (trim s) ∧ endsClean (trim s)).
Proof.
  unfold trim. destruct (trimStart_result s) as [-> | H]; [by left|].
  destruct (trimEnd_result (trimStart s)) as [-> | H']; [by left|].
  right. split; [by apply trimEnd_startsClean | done].
Qed.

Lemma trim_clean s : startsClean s → endsClean s → trim s = s.
Proof. intros H1 H2. unfold trim. rewrite trimStart_clean by done. by apply trimEnd_clean. Qed.

Lemma trim_nonempty s : 0 < len (trim s) → startsClean (trim s) ∧ endsClean (trim s).
Proof.
  intros H. destruct (trim_result s) as [E | ?]; [|done].
  rewrite E in H. unfold len in H. simpl in H. lia.
Qed.

(** ** The chunker *)

Lemma sentencesOf_nonblank text s : s ∈ sentencesOf text → 0 < len (trim s).
Proof.
  unfold sentencesOf. rewrite list_elem_of_In, filter_In.
  intros [_ H]. by apply Z.ltb_lt.
Qed.

(** The two outcomes of one iteration. *)
Lemma chunkStep_cases chunkSize overlap chunks cur s :
  (cur ≠ [] ∧ chunkSize < len (cur ++ trim s) ∧
   chunkStep chunkSize overlap (chunks, cur) s
   = (chunks ++ [trim cur], overlapText overlap cur ++ space :: trim s))
  ∨ (cur ≠ [] ∧ len (cur ++ trim s) ≤ chunkSize ∧
     chunkStep chunkSize overlap (chunks, cur) s = (chunks, cur ++ str ". " ++ trim s))
  ∨ (cur = [] ∧ chunkStep chunkSize overlap (chunks, cur) s = (chunks, trim s)).
Proof.
  unfold chunkStep.
  destruct cur as [|c cur].
  - right; right. split; [done|]. simpl. rewrite andb_false_r. done.
  - destruct (len ((c :: cur) ++ trim s) >? chunkSize) eqn:E.
    + left. split; [done|]. split; [apply Z.gtb_lt in E; lia|].
      assert ((len (c :: cur) >? 0) = true) as ->; [|done].
      apply Z.gtb_lt. unfold len. simpl. lia.
    + right; left. split; [done|]. split; [|done].
      rewrite Z.gtb_ltb in E. apply Z.ltb_ge in E. lia.
Qed.

Lemma chunkLoop_cons chunkSize overlap s sentences st :
  chunkLoop chunkSize overlap (s :: sentences) st
  = chunkLoop chunkSize overlap sentences (chunkStep chunkSize overlap st s).
Proof. reflexivity. Qed.

Lemma chunkLoop_built chunkSize overlap all sentences :
  ∀ chunks cur,
    (∀ s, s ∈ sentences → s ∈ all) →
    Forall (λ c, ∃ w, c = trim w ∧ Built chunkSize overlap all w) chunks →
    (cur = [] ∨ Built chunkSize overlap all cur) →
    Forall (λ c, ∃ w, c = trim w ∧ Built chunkSize overlap all w)
           (chunkLoop chunkSize overlap sentences (chunks, cur)).1
    ∧ ((chunkLoop chunkSize overlap sentences (chunks, cur)).2 = []
       ∨ Built chunkSize overlap all (chunkLoop chunkSize overlap sentences (chunks, cur)).2).
Proof.
  induction sentences as [|s sentences IH]; intros chunks cur Hin Hchunks Hcur.
  - done.
  - rewrite chunkLoop_cons.
    assert (Hs : s ∈ all) by (apply Hin; left).
    assert (Hin' : ∀ s', s' ∈ sentences → s' ∈ all) by (intros; apply Hin; by right).
    destruct (chunkStep_cases chunkSize overlap chunks cur s)
      as [(Hne & Hbig & ->) | [(Hne & Hfit & ->) | (-> & ->)]].
    + destruct Hcur as [? | Hcur]; [done|].
      apply IH; [done| |].
      * apply Forall_app. split; [done|]. constructor; [|done]. by exists cur.
      * right. by apply built_overlap.
    + destruct Hcur as [? | Hcur]; [done|].
      apply IH; [done|done|]. right. by apply built_append.
    + apply IH; [done|done|]. right. by apply built_first.
Qed.

(** C2, as the code has it: every chunk is the trimmed form of a working
    string made of whole sentences.  A sentence is joined onto a non-empty
    working string only when the string and the sentence together have at
    most [chunkSize] units; a working string that a single sentence starts
    (alone, or after the overlap words of the flushed string) is kept
    whatever its length. *)
Theorem chunkText_chunks_built (text : jsstring) (chunkSize overlap : Z) :
  Forall (λ c, ∃ w, c = trim w ∧ Built chunkSize overlap (sentencesOf text) w)
         (chunkText text chunkSize overlap).
Proof.
  unfold chunkText.
  pose proof (chunkLoop_built chunkSize overlap (sentencesOf text) (sentencesOf text)
                [] [] (λ _ H, H) (List.Forall_nil _) (or_introl eq_refl)) as [Hchunks Hcur].
  destruct (chunkLoop chunkSize overlap (sentencesOf text) ([], [])) as [chunks cur].
  simpl in Hchunks, Hcur.
  destruct (0 <? len (trim cur)) eqn:E; [|done].
  apply Forall_app. split; [done|]. constructor; [|done].
  destruct Hcur as [-> | Hcur]; [done|]. by exists cur.
Qed.

(** C2 fails as stated: one sentence of 501 units, chunked with the default
    budget of 500, comes back whole. *)
Lemma chunkText_exceeds_chunkSize :
  chunkText (repeatUnit 97 501) defaultChunkSize defaultOverlap = [repeatUnit 97 501]
  ∧ ¬ Forall (λ c, len c ≤ defaultChunkSize)
             (chunkText (repeatUnit 97 501) defaultChunkSize defaultOverlap).
Proof.
  assert (E : chunkText (repeatUnit 97 501) defaultChunkSize defaultOverlap
              = [repeatUnit 97 501]) by (vm_compute; reflexivity).
  split; [exact E|]. rewrite E. intros H. inversion H as [|? ? Hlen _]; subst.
  vm_compute in Hlen. by apply Hlen.
Qed.









(** ** The context budget *)

Lemma len_app {A} (a b : list A) : len (a ++ b) = len a + len b.
Proof. unfold len. rewrite length_app. lia. Qed.

Lemma len_nonneg {A} (l : list A) : 0 ≤ len l.
Proof. unfold len. lia. Qed.







(** ** Searching never throws *)

Lemma getAllDocuments_ok `{Engine} o w :
  iterateFailure o 0%nat = None → getAllDocuments o w = (Ok (storedDocuments w), w).
Proof. unfold getAllDocuments. by intros ->. Qed.

Lemma getAllDocuments_world `{Engine} o w : (getAllDocuments o w).2 = w.
Proof. unfold getAllDocuments. by destruct (iterateFailure o 0%nat). Qed.

(** The [try] block reads the world and leaves it as it was. *)
Lemma searchBody_world `{Engine} o query topK w : (searchBody o query topK w).2 = w.
Proof.
  unfold searchBody, mbind, M_bind, bind, getAllDocuments.
  destruct (iterateFailure o 0%nat); [done|].
  destruct (hasEmbeddings (storedDocuments w)).
  - unfold generateEmbedding, liftResult. by destruct (embeddingRequest o 0%nat query).
  - unfold liftResult. by destruct (expandQueryTerms query).
Qed.

Lemma searchDocuments_result `{Engine} o query topK w :
  searchDocuments o query topK w
  = (Ok match (searchBody o query topK w).1 with
        | Ok found => found
        | Throw _ => []
        end, w).
Proof.
  unfold searchDocuments, tryCatch.
  pose proof (searchBody_world o query topK w) as Hw.
  destruct (searchBody o query topK w) as [[found | e] w']; simpl in *; by subst.
Qed.

(** C10: [searchDocuments] never throws and never touches the world; when
    anything inside its [try] block throws (the iteration of the store, the
    request for the query embedding, the expansion of the terms) it returns
    the empty list. *)
Theorem searchDocuments_never_throws `{Engine} (o : Outside) (query : jsstring)
    (topK : Z) (w : World) :
  (∃ found, searchDocuments o query topK w = (Ok found, w))
  ∧ (isOk (searchBody o query topK w).1 = false
     → searchDocuments o query topK w = (Ok [], w))
  ∧ (isOk (embeddingRequest o 0%nat query) = false
     → iterateFailure o 0%nat = None
     → hasEmbeddings (storedDocuments w) = true
     → searchDocuments o query topK w = (Ok [], w))
  ∧ (is_Some (iterateFailure o 0%nat)
     → searchDocuments o query topK w = (Ok [], w)).
Proof.
  rewrite searchDocuments_result. split; [by eexists|]. split; [|split].
  - by destruct (searchBody o query topK w).1.
  - intros Hreq Hit Hemb.
    unfold searchBody, mbind, M_bind, bind, getAllDocuments. rewrite Hit, Hemb.
    unfold generateEmbedding, liftResult. by destruct (embeddingRequest o 0%nat query).
  - intros [e He].
    unfold searchBody, mbind, M_bind, bind, getAllDocuments. by rewrite He.
Qed.



(** ** Sorting *)

Lemma sortInsert_Permutation {A} (compare : A → A → comparison) x l :
  Permutation (sortInsert compare x l) (x :: l).
Proof.
  induction l as [|y l IH]; simpl; [done|].
  destruct (compare x y); try done.
  rewrite IH. apply perm_swap.
Qed.

Lemma jsSort_Permutation {A} (compare : A → A → comparison) l :
  Permutation (jsSort compare l) l.
Proof.
  induction l as [|x l IH]; simpl; [done|].
  rewrite sortInsert_Permutation. by constructor.
Qed.

Lemma storedDocuments_nil `{Engine} w : storedDocuments w = [] ↔ documentsStore w = ∅.
Proof.
  unfold storedDocuments. split.
  - intros E. apply map_to_list_empty_iff.
    pose proof (Permutation_length
                  (jsSort_Permutation byUploadTime (map_to_list (documentsStore w)).*2)) as Hl.
    rewrite E, length_fmap in Hl. simpl in Hl.
    by destruct (map_to_list (documentsStore w)).
  - intros ->. by rewrite map_to_list_empty.
Qed.

(** ** The layout of the context *)




(** ** Parsing *)

Lemma recognizedPages_app l1 l2 :
  recognizedPages (l1 ++ l2) = recognizedPages l1 ++ recognizedPages l2.
Proof. apply omap_app. Qed.

Lemma readersCalled_app l1 l2 :
  readersCalled (l1 ++ l2) = readersCalled l1 ++ readersCalled l2.
Proof. apply omap_app. Qed.

Lemma ocrPages_S pdf count pageNum ocrText log :
  ocrPages pdf (S count) pageNum ocrText log
  = let log' := log ++ [Progress (str "OCR processing page " ++ ofInt pageNum ++ str "...")] in
    match pdf !! Z.to_nat (pageNum - 1) with
    | None => (Throw (str "Invalid page request"), log')
    | Some page =>
        if negb (canvasContext page) then ocrPages pdf count (pageNum + 1) ocrText log'
        else
          match recognized page with
          | Throw e => (Throw e, log' ++ [Recognize pageNum])
          | Ok text =>
              ocrPages pdf count (pageNum + 1) (ocrText ++ text ++ [newline; newline])
                       (log' ++ [Recognize pageNum])
          end
    end.
Proof. reflexivity. Qed.

(** The OCR loop appends to the log; it calls no reader, and the pages it
    recognizes are among the [count] pages from [pageNum] on, each at most
    once and in order. *)
Lemma ocrPages_log pdf count :
  ∀ pageNum ocrText log,
    ∃ more,
      (ocrPages pdf count pageNum ocrText log).2 = log ++ more
      ∧ readersCalled more = []
      ∧ recognizedPages more `sublist_of` seqZ pageNum (Z.of_nat count).
Proof.
  induction count as [|count IH]; intros pageNum ocrText log.
  - exists []. cbn [ocrPages snd]. by rewrite app_nil_r.
  - rewrite ocrPages_S. cbv zeta.
    replace (Z.of_nat (S count)) with (Z.succ (Z.of_nat count)) by lia.
    rewrite seqZ_cons by lia. rewrite Z.pred_succ.
    set (status := Progress (str "OCR processing page " ++ ofInt pageNum ++ str "...")).
    destruct (pdf !! Z.to_nat (pageNum - 1)) as [page|].
    + destruct (canvasContext page); cbn [negb].
      * destruct (recognized page) as [text | e].
        -- destruct (IH (pageNum + 1) (ocrText ++ text ++ [newline; newline])
                       ((log ++ [status]) ++ [Recognize pageNum]))
             as (more & -> & Hr & Hp).
           exists (status :: Recognize pageNum :: more). split; [|split].
           ++ by rewrite <- !app_assoc.
           ++ done.
           ++ apply sublist_skip. by rewrite Z.add_1_r in Hp.
        -- exists [status; Recognize pageNum]. split; [|split].
           ++ cbn [snd]. by rewrite <- !app_assoc.
           ++ done.
           ++ apply sublist_skip, sublist_nil_l.
      * destruct (IH (pageNum + 1) ocrText (log ++ [status])) as (more & -> & Hr & Hp).
        exists (status :: more). split; [|split].
        -- by rewrite <- !app_assoc.
        -- done.
        -- apply sublist_cons. by rewrite Z.add_1_r in Hp.
    + exists [status]. split; [done|]. split; [done|]. apply sublist_nil_l.
Qed.



(** On the scanned sample the recognizer is called for pages 1 to 10 and
    never for pages 11 and 12. *)
Example parsePDF_scanned_pages :
  recognizedPages (parsePDF scannedFile).2 = seqZ 1 10.
Proof. vm_compute. reflexivity. Qed.

Lemma parsePDF_no_reader file : readersCalled (parsePDF file).2 = [].
Proof.
  unfold parsePDF.
  destruct (pdfDocument file) as [pdf | e]; [|done].
  destruct (extractText pdf []) as [fullText | e]; [|done].
  cbn [app].
  destruct (len (trim fullText) <? MIN_TEXT_LENGTH); [|done].
  destruct (ocrPages_log pdf (Z.to_nat (Z.min (len pdf) OCR_PAGE_LIMIT)) 1 []
              [Progress (str "Loading PDF..."); Progress (str "Extracting text...");
               Progress scannedStatus]) as (more & Hlog & Hr & _).
  destruct (ocrPages pdf (Z.to_nat (Z.min (len pdf) OCR_PAGE_LIMIT)) 1 [] _)
    as [[ocrText | e] log]; cbn [snd] in Hlog; subst log.
  - destruct (len (trim ocrText) <? MIN_TEXT_LENGTH); cbn [snd];
      by rewrite readersCalled_app, Hr.
  - cbn [snd]. by rewrite readersCalled_app, Hr.
Qed.

(** When the PDF cannot be loaded or the extraction throws, the parse
    fails before any OCR. *)
Lemma parsePDF_no_ocr_on_failure file :
  isOk (pdfDocument file) = false
  ∨ (∃ pdf, pdfDocument file = Ok pdf ∧ isOk (extractText pdf []) = false) →
  isOk (parsePDF file).1 = false ∧ recognizedPages (parsePDF file).2 = [].
Proof.
  unfold parsePDF. intros [Hload | (pdf & -> & Hextract)].
  - by destruct (pdfDocument file).
  - by destruct (extractText pdf []).
Qed.


(** A file that matches no format: the error names its type. *)
Example parseFile_unsupported :
  parseFile (H := asciiEngine)
    (mkFile (str "photo.PNG") (str "image/png") 10 (Ok (str "x")) (Throw []) (Throw []) (Throw []))
  = (Throw (str "Unsupported file type: image/png"), []).
Proof. vm_compute. reflexivity. Qed.

(** The name is lower-cased before the test, and the first test wins. *)
Example parseFile_by_extension :
  readersCalled (parseFile (H := asciiEngine) scannedFile).2 = [PDF].
Proof. vm_compute. reflexivity. Qed.

(** ** Cosine similarity *)

Lemma cosineSums_folds a :
  ∀ b dotProduct normA normB,
    length a = length b →
    cosineSums a b (dotProduct, normA, normB)
    = (fold_left (λ acc '(x, y), (acc + x * y)%float) (zip a b) dotProduct,
       fold_left (λ acc x, (acc + x * x)%float) a normA,
       fold_left (λ acc x, (acc + x * x)%float) b normB).
Proof.
  induction a as [|x a IH]; intros [|y b] d na nb Hlen; simpl in *; try done.
  apply IH. lia.
Qed.

Lemma is_zero_spec x : is_zero x = true → zeroOrNaN (Prim2SF x) = true.
Proof.
  unfold is_zero. rewrite FloatAxioms.eqb_spec.
  change (Prim2SF 0%float) with (S754_zero false).
  by destruct (Prim2SF x) as [| | |[] ]; try destruct s.
Qed.

Lemma is_nan_spec x : Prim2SF x = S754_nan → is_nan x = true.
Proof. intros E. unfold is_nan. by rewrite FloatAxioms.eqb_spec, E. Qed.

Lemma mul_zeroOrNaN_l x y :
  zeroOrNaN (Prim2SF x) = true → zeroOrNaN (Prim2SF (x * y)) = true.
Proof.
  rewrite FloatAxioms.mul_spec. unfold SF64mul, SFmul.
  by destruct (Prim2SF x), (Prim2SF y).
Qed.

Lemma mul_zeroOrNaN_r x y :
  zeroOrNaN (Prim2SF y) = true → zeroOrNaN (Prim2SF (x * y)) = true.
Proof.
  rewrite FloatAxioms.mul_spec. unfold SF64mul, SFmul.
  by destruct (Prim2SF x), (Prim2SF y).
Qed.

Lemma add_zeroOrNaN x y :
  zeroOrNaN (Prim2SF x) = true → zeroOrNaN (Prim2SF y) = true →
  zeroOrNaN (Prim2SF (x + y)) = true.
Proof.
  rewrite FloatAxioms.add_spec. unfold SF64add, SFadd.
  destruct (Prim2SF x) as [[]| | |], (Prim2SF y) as [[]| | |]; done.
Qed.

Lemma sqrt_zeroOrNaN x :
  zeroOrNaN (Prim2SF x) = true → zeroOrNaN (Prim2SF (sqrt x)) = true.
Proof.
  rewrite FloatAxioms.sqrt_spec. unfold SF64sqrt, SFsqrt. by destruct (Prim2SF x) as [| | |[]].
Qed.

Lemma div_zeroOrNaN x y :
  zeroOrNaN (Prim2SF x) = true → zeroOrNaN (Prim2SF y) = true →
  is_nan (x / y) = true.
Proof.
  intros Hx Hy. apply is_nan_spec. rewrite FloatAxioms.div_spec. unfold SF64div, SFdiv.
  by destruct (Prim2SF x), (Prim2SF y).
Qed.

Lemma sumOfSquares_zeros a :
  ∀ acc, allZeros a → zeroOrNaN (Prim2SF acc) = true →
         zeroOrNaN (Prim2SF (fold_left (λ acc x, (acc + x * x)%float) a acc)) = true.
Proof.
  induction a as [|x a IH]; intros acc Hz Hacc; simpl; [done|].
  inversion Hz as [|? ? Hx Ha]; subst.
  apply IH; [done|]. apply add_zeroOrNaN; [done|].
  by apply mul_zeroOrNaN_l, is_zero_spec.
Qed.

Lemma dotProduct_zeros a :
  ∀ b acc, allZeros a ∨ allZeros b → zeroOrNaN (Prim2SF acc) = true →
           zeroOrNaN (Prim2SF (fold_left (λ acc '(x, y), (acc + x * y)%float)
                                         (zip a b) acc)) = true.
Proof.
  induction a as [|x a IH]; intros [|y b] acc Hz Hacc; simpl; try done.
  apply IH.
  - destruct Hz as [Hz | Hz]; inversion Hz; subst; [by left | by right].
  - apply add_zeroOrNaN; [done|].
    destruct Hz as [Hz | Hz]; inversion Hz; subst.
    + by apply mul_zeroOrNaN_l, is_zero_spec.
    + by apply mul_zeroOrNaN_r, is_zero_spec.
Qed.

(** C9: for vectors of unequal length the result is 0 and no element is
    read; for vectors of one length it is the dot product divided by the
    product of the Euclidean norms, and that is NaN when either vector
    holds only zeros. *)
Theorem cosineSimilarity_spec (a b : vector) :
  (length a ≠ length b → cosineSimilarity a b = 0%float)
  ∧ (length a = length b →
     cosineSimilarity a b
     = (dotProductOf a b / (euclideanNorm a * euclideanNorm b))%float)
  ∧ (length a = length b → allZeros a ∨ allZeros b →
     is_nan (cosineSimilarity a b) = true).
Proof.
  assert (Heq : length a = length b →
                cosineSimilarity a b
                = (dotProductOf a b / (euclideanNorm a * euclideanNorm b))%float).
  { intros Hlen. unfold cosineSimilarity, len. rewrite Hlen, Z.eqb_refl. cbn [negb].
    by rewrite cosineSums_folds. }
  split; [|split; [done|]].
  - intros Hlen. unfold cosineSimilarity, len.
    destruct (Z.of_nat (length a) =? Z.of_nat (length b)) eqn:E; [|done].
    apply Z.eqb_eq in E. lia.
  - intros Hlen Hz. rewrite (Heq Hlen).
    apply div_zeroOrNaN.
    + by apply dotProduct_zeros.
    + unfold euclideanNorm. destruct Hz as [Hz | Hz].
      * by apply mul_zeroOrNaN_l, sqrt_zeroOrNaN, sumOfSquares_zeros.
      * by apply mul_zeroOrNaN_r, sqrt_zeroOrNaN, sumOfSquares_zeros.
Qed.

Example cosineSimilarity_zero_vector :
  is_nan (cosineSimilarity [1; 0]%float [0; 0]%float) = true
  ∧ cosineSimilarity [1; 0]%float [1; 0; 0]%float = 0%float
  ∧ cosineSimilarity [3; 4]%float [3; 4]%float = 1%float.
Proof. vm_compute. done. Qed.

(** ** Uploading *)


Lemma embedChunks_lookup o useEmbeddings ident textChunks :
  ∀ i (k : nat) c,
    embedChunks o useEmbeddings ident textChunks i !! k = Some c →
    embedding c = embeddingStored o useEmbeddings (i + k) (chunkContent c)
    ∧ chunkIndex (metadata c) = Some (Z.of_nat (i + k))
    ∧ documentId c = ident.
Proof.
  induction textChunks as [|text rest IH]; intros i k c; [done|].
  cbn [embedChunks]. destruct k as [|k].
  - rewrite Nat.add_0_r. unfold embeddingStored.
    destruct useEmbeddings; [destruct (embeddingRequest o i text) eqn:E|];
      intros [= <-]; cbn; by rewrite ?E.
  - intros Hk. apply IH in Hk. by replace (i + S k)%nat with (S i + k)%nat by lia.
Qed.

Lemma checkEmbeddingModel_total o w :
  ∃ useEmbeddings,
    checkEmbeddingModel o w
    = (Ok useEmbeddings, mkWorld (documentsStore w) (Some useEmbeddings)).
Proof.
  unfold checkEmbeddingModel. destruct w as [store [available|]]; cbn; by eexists.
Qed.



(** With the model installed and the first call refused, the first chunk
    is stored without an embedding and the second with one. *)
Example uploadDocument_one_failure :
  let text := repeatUnit 97 700 ++ str ". " ++ repeatUnit 98 700 in
  let file := mkFile (str "two.txt") (str "text/plain") 1402 (Ok text)
                     (Throw []) (Throw []) (Throw []) in
  match (uploadDocument (H := asciiEngine) flaky file emptyWorld).1 with
  | Ok document =>
      map (λ c, (len (chunkContent c), embedding c)) (chunks document)
      = [(700, None); (1401, Some [1; 0]%float)]
  | Throw _ => False
  end.
Proof. vm_compute. reflexivity. Qed.

(** ** Doubles: the sign of a difference *)
























(** ** Ranking *)














(** A question that holds the word [constructor]: the lookup in the table
    of synonyms finds the member inherited from [Object.prototype], the call
    of its [forEach] throws, and the keyword search comes back empty although
    the stored chunk holds the word. *)
Example searchDocuments_inherited_property :
  let document :=
    mkDocument (str "doc_4_c") (str "api.txt") (str "text/plain") 27
               (str "1970-01-01T00:00:00.000Z") (str "The constructor takes a name")
               [sampleChunk (str "The constructor takes a name") None] in
  let world := mkWorld {[ str "doc_4_c" := document ]} None in
  searchDocuments (H := asciiEngine) offline (str "constructor") defaultSearchTopK world
  = (Ok [], world)
  ∧ keywordScore (H := asciiEngine) [str "constructor"] (str "The constructor takes a name")
    = 1.
Proof. vm_compute. done. Qed.

(** A negative [topK] counts from the end: [slice(0, -1)] keeps all entries
    but the last. *)
Example sliceTo_negative : sliceTo (-1) [1; 2; 3] = [1; 2].
Proof. reflexivity. Qed.

(** * Further properties *)

(** ** The chunker: what the loop keeps *)

(** An invariant of the loop of [chunkText]: [P seen chunks cur] relates
    the sentences already read to the array and the working string. *)
Lemma chunkLoop_invariant chunkSize overlap
    (P : list jsstring → list jsstring → jsstring → Prop) :
  (∀ seen chunks cur s,
     P seen chunks cur → 0 < len (trim s) → cur ≠ [] → chunkSize < len (cur ++ trim s) →
     P (seen ++ [s]) (chunks ++ [trim cur]) (overlapText overlap cur ++ space :: trim s)) →
  (∀ seen chunks cur s,
     P seen chunks cur → 0 < len (trim s) → cur ≠ [] → len (cur ++ trim s) ≤ chunkSize →
     P (seen ++ [s]) chunks (cur ++ str ". " ++ trim s)) →
  (∀ seen chunks s,
     P seen chunks [] → 0 < len (trim s) → P (seen ++ [s]) chunks (trim s)) →
  ∀ sentences seen chunks cur,
    (∀ s, s ∈ sentences → 0 < len (trim s)) →
    P seen chunks cur →
    P (seen ++ sentences)
      (chunkLoop chunkSize overlap sentences (chunks, cur)).1
      (chunkLoop chunkSize overlap sentences (chunks, cur)).2.
Proof.
  intros Hflush Hjoin Hfirst.
  induction sentences as [|s sentences IH]; intros seen chunks cur Hs HP.
  - by rewrite app_nil_r.
  - rewrite chunkLoop_cons.
    assert (Hts : 0 < len (trim s)) by (apply Hs; left).
    assert (Hs' : ∀ s', s' ∈ sentences → 0 < len (trim s')) by (intros; apply Hs; by right).
    replace (seen ++ s :: sentences) with ((seen ++ [s]) ++ sentences)
      by (by rewrite <- app_assoc).
    destruct (chunkStep_cases chunkSize overlap chunks cur s)
      as [(Hne & Hbig & ->) | [(Hne & Hfit & ->) | (-> & ->)]]; apply IH; auto.
Qed.

Lemma trim_endsClean s : endsClean s → trim s = trimStart s ∧ startsClean (trim s).
Proof.
  intros He.
  assert (G : ∀ r, endsClean r → endsClean (trimStart r) ∧ startsClean (trimStart r)).
  { induction r as [|c r IH]; [done|]. intros Hr. cbn [trimStart].
    destruct (isWhiteSpace c) eqn:E; [|done].
    apply IH. unfold endsClean in *. cbn [rev] in Hr.
    destruct (rev r) as [|d r'] eqn:Er; cbn in *; [congruence|done]. }
  destruct (G s He) as [He' Hs'].
  unfold trim. rewrite trimEnd_clean by done. done.
Qed.

(** The working string of [chunkText] is empty or ends with a unit that
    [trim] keeps; every chunk pushed starts and ends with such a unit. *)
Lemma chunkLoop_clean chunkSize overlap sentences :
  (∀ s, s ∈ sentences → 0 < len (trim s)) →
  Forall (λ c, startsClean c ∧ endsClean c)
         (chunkLoop chunkSize overlap sentences ([], [])).1
  ∧ ((chunkLoop chunkSize overlap sentences ([], [])).2 = []
     ∨ endsClean (chunkLoop chunkSize overlap sentences ([], [])).2).
Proof.
  intros Hs.
  refine (chunkLoop_invariant chunkSize overlap
            (λ _ chunks cur, Forall (λ c, startsClean c ∧ endsClean c) chunks
                             ∧ (cur = [] ∨ endsClean cur))
            _ _ _ sentences [] [] [] Hs _); [| | |by split; [constructor|left]].
  - intros _ chunks cur s [Hc [-> | Hcur]] Hts Hne _; [done|]. split.
    + apply Forall_app. split; [done|]. constructor; [|done].
      destruct (trim_endsClean cur Hcur) as [Heq Hstart]. split; [done|].
      destruct (trim_result cur) as [E | [_ ?]]; [|done]. by rewrite E in Hstart.
    + right. apply (endsClean_app _ (space :: trim s)), (endsClean_app [space]).
      by apply trim_nonempty.
  - intros _ chunks cur s [Hc _] Hts _ _. split; [done|]. right.
    apply endsClean_app, (endsClean_app (str ". ")). by apply trim_nonempty.
  - intros _ chunks s [Hc _] Hts. split; [done|]. right. by apply trim_nonempty.
Qed.

(** X1: every chunk [chunkText] returns is non-empty and free of white
    space at both ends. *)
Theorem chunkText_chunks_clean (text : jsstring) (chunkSize overlap : Z) :
  Forall (λ c, c ≠ [] ∧ startsClean c ∧ endsClean c ∧ trim c = c)
         (chunkText text chunkSize overlap).
Proof.
  assert (Hclean : Forall (λ c, startsClean c ∧ endsClean c)
                          (chunkText text chunkSize overlap)).
  { unfold chunkText.
    destruct (chunkLoop_clean chunkSize overlap (sentencesOf text)
                (sentencesOf_nonblank text)) as [Hchunks Hcur].
    destruct (chunkLoop chunkSize overlap (sentencesOf text) ([], [])) as [chunks cur].
    cbn [fst snd] in *.
    destruct (0 <? len (trim cur)) eqn:E; [|done].
    apply Forall_app. split; [done|]. constructor; [|done].
    apply Z.ltb_lt in E. by apply trim_nonempty. }
  eapply Forall_impl; [exact Hclean|]. intros c [Hs He]. cbn beta.
  split; [by destruct c|]. split; [done|]. split; [done|]. by apply trim_clean.
Qed.

(** X2: [chunkText] returns at most as many chunks as the text has
    sentences with content; a text without any gives no chunk. *)
Theorem chunkText_count (text : jsstring) (chunkSize overlap : Z) :
  (length (chunkText text chunkSize overlap) ≤ length (sentencesOf text))%nat
  ∧ (sentencesOf text = [] → chunkText text chunkSize overlap = []).
Proof.
  split; [|by unfold chunkText; intros ->].
  unfold chunkText.
  assert (Hres :
    ((chunkLoop chunkSize overlap (sentencesOf text) ([], [])).2 = [] →
     (chunkLoop chunkSize overlap (sentencesOf text) ([], [])).1 = []
     ∧ [] ++ sentencesOf text = [])
    ∧ ((chunkLoop chunkSize overlap (sentencesOf text) ([], [])).2 ≠ [] →
       (S (length (chunkLoop chunkSize overlap (sentencesOf text) ([], [])).1)
        ≤ length ([] ++ sentencesOf text))%nat)).
  { refine (chunkLoop_invariant chunkSize overlap
              (λ seen chunks cur,
                 (cur = [] → chunks = [] ∧ seen = [])
                 ∧ (cur ≠ [] → (S (length chunks) ≤ length seen)%nat))
              _ _ _ (sentencesOf text) [] [] [] (sentencesOf_nonblank text) _).
    - intros seen chunks0 cur0 s [_ Hlen] _ Hne _. split.
      + intros E. by destruct (overlapText overlap cur0).
      + intros _. rewrite !length_app. cbn [length]. specialize (Hlen Hne). lia.
    - intros seen chunks0 cur0 s [_ Hlen] _ Hne _. split.
      + intros E. by destruct cur0.
      + intros _. rewrite length_app. cbn [length]. specialize (Hlen Hne). lia.
    - intros seen chunks0 s [Hnil _] Hts. destruct (Hnil eq_refl) as [-> ->]. split.
      + intros E. rewrite E in Hts. vm_compute in Hts. done.
      + intros _. cbn. lia.
    - done. }
  cbn [app] in Hres.
  destruct (chunkLoop chunkSize overlap (sentencesOf text) ([], [])) as [chunks cur].
  cbn [fst snd] in Hres. destruct Hres as [Hnil Hlen].
  destruct (0 <? len (trim cur)) eqn:E.
  - rewrite length_app. cbn [length].
    assert (Hne : cur ≠ []) by (intros ->; cbn in E; done).
    specialize (Hlen Hne). lia.
  - destruct cur as [|c cur]; [by destruct (Hnil eq_refl) as [-> ->]|].
    specialize (Hlen ltac:(done)). lia.
Qed.

Lemma Infix_nil t : Infix t [] → t = [].
Proof.
  intros (before & after & E). symmetry in E.
  apply app_eq_nil in E as [_ E]. by apply app_eq_nil in E as [E _].
Qed.

Lemma Infix_app_r t l more : Infix t l → Infix t (l ++ more).
Proof.
  intros (before & after & ->). exists before, (after ++ more).
  by rewrite <- !app_assoc.
Qed.

Lemma Infix_trimStart t l : startsClean t → Infix t l → Infix t (trimStart l).
Proof.
  intros Ht (before & after & ->).
  induction before as [|c before IH]; cbn [app trimStart].
  - rewrite trimStart_clean by (by destruct t). by exists [], after.
  - destruct (isWhiteSpace c); [done|]. by exists (c :: before), after.
Qed.

Lemma Infix_trim t l : startsClean t → endsClean l → Infix t l → Infix t (trim l).
Proof.
  intros Ht Hl Hin. destruct (trim_endsClean l Hl) as [-> _]. by apply Infix_trimStart.
Qed.

(** X3: no sentence is lost: every sentence of the text that has content
    occurs, trimmed, as a contiguous part of some chunk. *)
Theorem chunkText_keeps_sentences (text : jsstring) (chunkSize overlap : Z) :
  Forall (λ s, ∃ c, c ∈ chunkText text chunkSize overlap ∧ Infix (trim s) c)
         (sentencesOf text).
Proof.
  assert (Hres :
    let chunks := (chunkLoop chunkSize overlap (sentencesOf text) ([], [])).1 in
    let cur := (chunkLoop chunkSize overlap (sentencesOf text) ([], [])).2 in
    (∀ s, s ∈ [] ++ sentencesOf text →
          0 < len (trim s)
          ∧ ((∃ c, c ∈ chunks ∧ Infix (trim s) c) ∨ Infix (trim s) cur))
    ∧ (cur = [] ∨ endsClean cur)).
  { refine (chunkLoop_invariant chunkSize overlap
              (λ seen chunks cur,
                 (∀ s, s ∈ seen →
                       0 < len (trim s)
                       ∧ ((∃ c, c ∈ chunks ∧ Infix (trim s) c) ∨ Infix (trim s) cur))
                 ∧ (cur = [] ∨ endsClean cur))
              _ _ _ (sentencesOf text) [] [] [] (sentencesOf_nonblank text) _).
    - intros seen chunks cur s [Hseen Hclean] Hts Hne _. split.
      + intros s' Hs'. apply elem_of_app in Hs' as [Hs' | Hs'].
        * destruct (Hseen s' Hs') as [Hts' [(c & Hc & Hin) | Hin]]; (split; [done|]).
          -- left. exists c. split; [|done]. apply elem_of_app. by left.
          -- left. exists (trim cur). split; [apply elem_of_app; right; left|].
             destruct Hclean as [-> | Hclean]; [done|].
             apply Infix_trim; [by apply trim_nonempty|done|done].
        * apply list_elem_of_singleton in Hs' as ->. split; [done|]. right.
          exists (overlapText overlap cur ++ [space]), []. by rewrite app_nil_r, <- app_assoc.
      + right. apply (endsClean_app _ (space :: trim s)), (endsClean_app [space]).
        by apply trim_nonempty.
    - intros seen chunks cur s [Hseen Hclean] Hts Hne _. split.
      + intros s' Hs'. apply elem_of_app in Hs' as [Hs' | Hs'].
        * destruct (Hseen s' Hs') as [Hts' [Hc | Hin]]; (split; [done|]); [by left|].
          right. by apply Infix_app_r.
        * apply list_elem_of_singleton in Hs' as ->. split; [done|]. right.
          exists (cur ++ str ". "), []. by rewrite app_nil_r, <- app_assoc.
      + right. apply endsClean_app, (endsClean_app (str ". ")). by apply trim_nonempty.
    - intros seen chunks s [Hseen _] Hts. split.
      + intros s' Hs'. apply elem_of_app in Hs' as [Hs' | Hs'].
        * destruct (Hseen s' Hs') as [Hts' [Hc | Hin]]; (split; [done|]); [by left|].
          apply Infix_nil in Hin. rewrite Hin in Hts'. vm_compute in Hts'. done.
        * apply list_elem_of_singleton in Hs' as ->. split; [done|]. right.
          exists [], []. by rewrite app_nil_r.
      + right. by apply trim_nonempty.
    - split; [|by left]. intros s Hs. by apply elem_of_nil in Hs. }
  cbv zeta in Hres. cbn [app] in Hres. unfold chunkText.
  destruct (chunkLoop chunkSize overlap (sentencesOf text) ([], [])) as [chunks cur].
  cbn [fst snd] in Hres. destruct Hres as [Hseen Hclean].
  apply Forall_forall. intros s Hs.
  destruct (Hseen s Hs) as [Hts [(c & Hc & Hin) | Hin]].
  - exists c. split; [|done]. destruct (0 <? len (trim cur)); [|done].
    apply elem_of_app. by left.
  - destruct Hclean as [-> | Hclean].
    { apply Infix_nil in Hin. rewrite Hin in Hts. vm_compute in Hts. done. }
    destruct (trim_endsClean cur Hclean) as [_ Hstart].
    assert (Hlen : (0 <? len (trim cur)) = true).
    { apply Z.ltb_lt. unfold len. destruct (trim cur); [done|]. cbn [length]. lia. }
    rewrite Hlen. exists (trim cur). split; [apply elem_of_app; right; left|].
    apply Infix_trim; [by apply trim_nonempty|done|done].
Qed.

Lemma joinWith_snoc sep l x :
  l ≠ [] → joinWith sep (l ++ [x]) = joinWith sep l ++ sep ++ x.
Proof.
  induction l as [|y l IH]; [done|]. intros _.
  destruct l as [|z l]; [done|].
  change (joinWith sep ((y :: z :: l) ++ [x]))
    with (y ++ sep ++ joinWith sep ((z :: l) ++ [x])).
  rewrite IH by done. cbn [joinWith]. by rewrite <- !app_assoc.
Qed.

Lemma joinWith_prefix_length sep l r :
  len (joinWith sep l) ≤ len (joinWith sep (l ++ r)).
Proof.
  induction r as [|x r IH] using rev_ind; [by rewrite app_nil_r|].
  etrans; [exact IH|]. rewrite app_assoc.
  destruct (l ++ r) as [|y lr] eqn:E.
  - cbn. apply len_nonneg.
  - rewrite joinWith_snoc by done. rewrite !len_app.
    pose proof (len_nonneg sep). pose proof (len_nonneg x). lia.
Qed.

Lemma joinWith_startsClean sep x l : startsClean x → startsClean (joinWith sep (x :: l)).
Proof. intros Hx. destruct l; cbn [joinWith]; by destruct x. Qed.

(** X4: a text whose sentences, joined by a full stop and a space, exceed
    the budget by at most the two units of one separator comes back as one
    chunk: that join. *)
Theorem chunkText_single_chunk (text : jsstring) (chunkSize overlap : Z) :
  sentencesOf text ≠ [] →
  len (joinWith (str ". ") (map trim (sentencesOf text))) ≤ chunkSize + 2 →
  chunkText text chunkSize overlap = [joinWith (str ". ") (map trim (sentencesOf text))].
Proof.
  intros Hne Hfit.
  assert (Hres :
    (∃ rest, ([] ++ sentencesOf text) ++ rest = sentencesOf text) →
    (chunkLoop chunkSize overlap (sentencesOf text) ([], [])).1 = []
    ∧ (chunkLoop chunkSize overlap (sentencesOf text) ([], [])).2
      = joinWith (str ". ") (map trim ([] ++ sentencesOf text))).
  { refine (chunkLoop_invariant chunkSize overlap
              (λ seen chunks cur,
                 (∃ rest, seen ++ rest = sentencesOf text) →
                 chunks = [] ∧ cur = joinWith (str ". ") (map trim seen))
              _ _ _ (sentencesOf text) [] [] [] (sentencesOf_nonblank text) _).
    - intros seen chunks cur s IH Hts Hcur Hbig [rest Hrest].
      destruct IH as [-> ->]; [exists (s :: rest); by rewrite <- app_assoc in Hrest|].
      exfalso.
      assert (Hseen : map trim seen ≠ []) by (by destruct seen).
      pose proof (joinWith_prefix_length (str ". ") (map trim (seen ++ [s]))
                    (map trim rest)) as Hlen.
      rewrite <- map_app, Hrest, map_app in Hlen. cbn [map] in Hlen.
      rewrite joinWith_snoc in Hlen by done.
      rewrite len_app in Hbig. rewrite len_app, (len_app (str ". ")) in Hlen.
      change (len (str ". ")) with 2 in Hlen. lia.
    - intros seen chunks cur s IH Hts Hcur Hfits [rest Hrest].
      destruct IH as [-> ->]; [exists (s :: rest); by rewrite <- app_assoc in Hrest|].
      split; [done|]. rewrite map_app. cbn [map].
      rewrite joinWith_snoc by (by destruct seen). done.
    - intros seen chunks s IH Hts [rest Hrest].
      destruct IH as [-> Hnil]; [exists (s :: rest); by rewrite <- app_assoc in Hrest|].
      destruct seen as [|x seen]; [done|]. exfalso.
      assert (Hx : 0 < len (trim x)).
      { apply sentencesOf_nonblank with text. rewrite <- Hrest. left. }
      pose proof (joinWith_startsClean (str ". ") (trim x) (map trim seen)
                    (proj1 (trim_nonempty x Hx))) as Hstart.
      cbn [map] in Hnil. by rewrite <- Hnil in Hstart.
    - done. }
  cbn [app] in Hres. destruct Hres as [Hchunks Hcur]; [exists []; apply app_nil_r|].
  destruct (chunkLoop_clean chunkSize overlap (sentencesOf text)
              (sentencesOf_nonblank text)) as [_ Hclean].
  unfold chunkText.
  destruct (chunkLoop chunkSize overlap (sentencesOf text) ([], [])) as [chunks cur].
  cbn [fst snd] in *. subst chunks.
  destruct (sentencesOf text) as [|x l] eqn:E; [done|].
  assert (Hx : 0 < len (trim x)).
  { apply sentencesOf_nonblank with text. rewrite E. left. }
  assert (Hstart : startsClean cur).
  { rewrite Hcur. apply joinWith_startsClean. by apply trim_nonempty. }
  destruct Hclean as [Hnil | Hend]; [by rewrite Hnil in Hstart|].
  rewrite trim_clean by done.
  assert ((0 <? len cur) = true) as ->.
  { apply Z.ltb_lt. unfold len. destruct cur; [done|]. cbn [length]. lia. }
  by rewrite Hcur.
Qed.

Lemma chunkText_single_chunk_witness :
  sentencesOf greeting ≠ []
  ∧ len (joinWith (str ". ") (map trim (sentencesOf greeting))) ≤ defaultChunkSize + 2
  ∧ chunkText greeting defaultChunkSize defaultOverlap
    = [joinWith (str ". ") (map trim (sentencesOf greeting))].
Proof.
  split; [by vm_compute|]. split; [by vm_compute|].
  apply (chunkText_single_chunk greeting defaultChunkSize defaultOverlap).
  - by vm_compute.
  - by vm_compute.
Defined.

(** The two sentences come back joined by a full stop; the terminators of
    the text are gone. *)
Example chunkText_greeting :
  chunkText greeting defaultChunkSize defaultOverlap = [str "Hi. How are you"].
Proof. vm_compute. reflexivity. Qed.

(** The join can exceed the budget by the separator: two sentences of 250
    units come back as one chunk of 502 under the budget of 500. *)
Example chunkText_separator_not_counted :
  map len (chunkText (repeatUnit 97 250 ++ str ". " ++ repeatUnit 98 250)
                     defaultChunkSize defaultOverlap) = [502].
Proof. vm_compute. reflexivity. Qed.

(** ** Query expansion *)

Lemma setAdd_spec expanded x :
  NoDup expanded →
  NoDup (setAdd expanded x)
  ∧ expanded `prefix_of` setAdd expanded x
  ∧ ∀ t, t ∈ setAdd expanded x ↔ t ∈ expanded ∨ t = x.
Proof.
  intros Hnd. unfold setAdd. destruct (bool_decide (x ∈ expanded)) eqn:E.
  - apply bool_decide_eq_true in E. split; [done|]. split; [done|].
    intros t. split; [by left|]. by intros [? | ->].
  - apply bool_decide_eq_false in E. split; [|split].
    + apply NoDup_app. split; [done|]. split; [|apply NoDup_singleton].
      intros t Ht Hx. apply list_elem_of_singleton in Hx. by subst.
    + by apply prefix_app_r.
    + intros t. rewrite elem_of_app, list_elem_of_singleton. done.
Qed.

Lemma fold_setAdd_spec values :
  ∀ expanded,
    NoDup expanded →
    NoDup (fold_left setAdd values expanded)
    ∧ expanded `prefix_of` fold_left setAdd values expanded
    ∧ ∀ t, t ∈ fold_left setAdd values expanded ↔ t ∈ expanded ∨ t ∈ values.
Proof.
  induction values as [|x values IH]; intros expanded Hnd; cbn [fold_left].
  - split; [done|]. split; [done|]. intros t. rewrite elem_of_nil. tauto.
  - destruct (setAdd_spec expanded x Hnd) as (Hnd' & Hpre & Hin).
    destruct (IH _ Hnd') as (Hnd'' & Hpre' & Hin').
    split; [done|]. split; [by etrans|].
    intros t. rewrite Hin', Hin, elem_of_cons. tauto.
Qed.

(** The callback of [words.forEach], word after word: the set grows at its
    end, keeps its entries distinct, and takes in nothing but the own
    synonyms of the words. *)
Lemma fold_addSynonyms_spec words :
  ∀ expanded terms,
    NoDup expanded →
    fold_left addSynonyms words (Ok expanded) = Ok terms →
    NoDup terms
    ∧ expanded `prefix_of` terms
    ∧ (∀ w, w ∈ words → synonymsAt w ≠ Inherited)
    ∧ ∀ t, t ∈ terms ↔
           t ∈ expanded ∨ ∃ w values, w ∈ words ∧ synonymsAt w = Own values ∧ t ∈ values.
Proof.
  induction words as [|word words IH]; intros expanded terms Hnd Hfold;
    cbn [fold_left] in Hfold.
  - injection Hfold as <-. split; [done|]. split; [done|].
    split; [by intros w Hw; apply elem_of_nil in Hw|].
    intros t. split; [by left|]. intros [? | (w & ? & Hw & _)]; [done|].
    by apply elem_of_nil in Hw.
  - unfold addSynonyms at 2 in Hfold.
    destruct (synonymsAt word) as [values| |] eqn:Eword.
    + destruct (fold_setAdd_spec values expanded Hnd) as (Hnd' & Hpre & Hin).
      destruct (IH _ _ Hnd' Hfold) as (Hnd'' & Hpre' & Hok & Hin').
      split; [done|]. split; [by etrans|]. split.
      * intros w Hw. apply elem_of_cons in Hw as [-> | Hw]; [congruence|by apply Hok].
      * intros t. rewrite Hin', Hin. split.
        -- intros [[? | Ht] | (w & vs & Hw & Hs & Ht)]; [by left| |].
           ++ right. exists word, values. split; [left|done].
           ++ right. exists w, vs. split; [by right|done].
        -- intros [? | (w & vs & Hw & Hs & Ht)]; [by left; left|].
           apply elem_of_cons in Hw as [-> | Hw].
           ++ left; right. congruence.
           ++ right. by exists w, vs.
    + exfalso. clear -Hfold. induction words as [|w words IH]; [done|]. by apply IH.
    + destruct (IH _ _ Hnd Hfold) as (Hnd'' & Hpre' & Hok & Hin').
      split; [done|]. split; [done|]. split.
      * intros w Hw. apply elem_of_cons in Hw as [-> | Hw]; [congruence|by apply Hok].
      * intros t. rewrite Hin'. split.
        -- intros [? | (w & vs & Hw & Hs & Ht)]; [by left|].
           right. exists w, vs. split; [by right|done].
        -- intros [? | (w & vs & Hw & Hs & Ht)]; [by left|].
           apply elem_of_cons in Hw as [-> | Hw]; [congruence|].
           right. by exists w, vs.
Qed.

Lemma fold_addSynonyms_throw words :
  ∀ e, fold_left addSynonyms words (Throw e) = Throw e.
Proof. induction words as [|w words IH]; intros e; [done|]. apply IH. Qed.

Lemma fold_addSynonyms_inherited words :
  ∀ expanded,
    (∃ w, w ∈ words ∧ synonymsAt w = Inherited) →
    isOk (fold_left addSynonyms words (Ok expanded)) = false.
Proof.
  induction words as [|word words IH]; intros expanded (w & Hw & Hinh).
  - by apply elem_of_nil in Hw.
  - cbn [fold_left]. unfold addSynonyms at 2.
    apply elem_of_cons in Hw as [<- | Hw].
    + by rewrite Hinh, fold_addSynonyms_throw.
    + destruct (synonymsAt word); [apply IH; by exists w| |apply IH; by exists w].
      by rewrite fold_addSynonyms_throw.
Qed.

(** X5: the terms [expandQueryTerms] returns are distinct; they start with
    the distinct words of the query in their order, hold every word, and
    hold nothing but the words and the synonyms the table lists for
    them. *)
Theorem expandQueryTerms_terms `{Engine} (query : jsstring) (terms : list jsstring) :
  expandQueryTerms query = Ok terms →
  NoDup terms
  ∧ fold_left setAdd (queryWords query) [] `prefix_of` terms
  ∧ (∀ w, w ∈ queryWords query → w ∈ terms)
  ∧ ∀ t, t ∈ terms →
         t ∈ queryWords query
         ∨ ∃ w values, w ∈ queryWords query ∧ assoc w synonyms = Some values ∧ t ∈ values.
Proof.
  unfold expandQueryTerms. intros Hfold.
  destruct (fold_setAdd_spec (queryWords query) [] (NoDup_nil_2)) as (Hnd & _ & Hin).
  destruct (fold_addSynonyms_spec _ _ _ Hnd Hfold) as (Hnd' & Hpre & _ & Hin').
  split; [done|]. split; [done|]. split.
  - intros w Hw. apply Hin'. left. apply Hin. by right.
  - intros t Ht. apply Hin' in Ht as [Ht | (w & values & Hw & Hs & Ht)].
    + apply Hin in Ht as [Ht | Ht]; [by apply elem_of_nil in Ht|by left].
    + right. exists w, values. split; [done|]. split; [|done].
      unfold synonymsAt in Hs. destruct (assoc w synonyms); [congruence|].
      by destruct (bool_decide (w ∈ inheritedNames)).
Qed.

Lemma expandQueryTerms_terms_witness :
  expandQueryTerms (H := asciiEngine) (str "Dell price of a Dell")
  = Ok (map str ["dell"; "price"; "latitude"; "optiplex"; "precision"; "xps";
                 "cost"; "pricing"; "amount"; "fee"]%string)
  ∧ NoDup (map str ["dell"; "price"; "latitude"; "optiplex"; "precision"; "xps";
                    "cost"; "pricing"; "amount"; "fee"]%string).
Proof.
  split; [vm_compute; reflexivity|].
  apply (@expandQueryTerms_terms asciiEngine (str "Dell price of a Dell")).
  vm_compute. reflexivity.
Defined.

(** X6: [expandQueryTerms] throws exactly when a word of the query is the
    name of a member that the table of synonyms inherits. *)
Theorem expandQueryTerms_throws `{Engine} (query : jsstring) :
  isOk (expandQueryTerms query) = false
  ↔ ∃ w, w ∈ queryWords query ∧ w ∈ inheritedNames ∧ assoc w synonyms = None.
Proof.
  unfold expandQueryTerms. split.
  - intros Hthrow.
    assert (Hex : ∃ w, w ∈ queryWords query ∧ synonymsAt w = Inherited).
    { revert Hthrow. generalize (fold_left setAdd (queryWords query) []).
      induction (queryWords query) as [|word words IH]; intros expanded Hthrow; [done|].
      cbn [fold_left] in Hthrow. unfold addSynonyms at 2 in Hthrow.
      destruct (synonymsAt word) eqn:Eword.
      - destruct (IH _ Hthrow) as (w & Hw & Hinh). exists w. split; [by right|done].
      - exists word. split; [left|done].
      - destruct (IH _ Hthrow) as (w & Hw & Hinh). exists w. split; [by right|done]. }
    destruct Hex as (w & Hw & Hinh). exists w. split; [done|].
    unfold synonymsAt in Hinh. destruct (assoc w synonyms); [done|].
    destruct (bool_decide (w ∈ inheritedNames)) eqn:E; [|done].
    by apply bool_decide_eq_true in E.
  - intros (w & Hw & Hinh & Hown). apply fold_addSynonyms_inherited.
    exists w. split; [done|]. unfold synonymsAt. rewrite Hown.
    by rewrite bool_decide_eq_true_2.
Qed.

(** ** Keyword scoring *)

Lemma countMatches_nonneg `{Engine} term s : ∀ skip, 0 ≤ countMatches term skip s.
Proof.
  induction s as [|c s IH]; intros skip; cbn [countMatches].
  - by destruct term.
  - destruct skip; [|apply IH]. destruct (matchesHere term (c :: s)); [|apply IH].
    specialize (IH (length term - 1)%nat). lia.
Qed.

Lemma matchesHere_length `{Engine} term :
  ∀ s, matchesHere term s = true → (length term ≤ length s)%nat.
Proof.
  induction term as [|t term IH]; intros [|c s] Hm; cbn in *; try lia; try done.
  apply andb_true_iff in Hm as [_ Hm]. apply IH in Hm. lia.
Qed.

(** The matches counted do not overlap: together they are no longer than
    what is left of the string after the units still to be skipped. *)
Lemma countMatches_bound `{Engine} term s :
  term ≠ [] →
  ∀ skip, countMatches term skip s * len term ≤ Z.max 0 (len s - Z.of_nat skip).
Proof.
  intros Hterm. unfold len.
  assert (Hlen : (1 ≤ length term)%nat) by (destruct term; [done|cbn; lia]).
  induction s as [|c s IH]; intros skip; cbn [countMatches].
  - destruct term; [done|]. lia.
  - cbn [length]. destruct skip as [|skip].
    + destruct (matchesHere term (c :: s)) eqn:Em.
      * apply matchesHere_length in Em. cbn [length] in Em.
        specialize (IH (length term - 1)%nat). lia.
      * specialize (IH 0%nat). lia.
    + specialize (IH skip). lia.
Qed.

(** A positive count means an occurrence, and an occurrence beyond the
    units to be skipped is counted or overlaps a match that is. *)
Lemma countMatches_positive `{Engine} term s :
  ∀ skip, 0 < countMatches term skip s ↔
          ∃ before after, drop skip s = before ++ after ∧ matchesHere term after = true.
Proof.
  induction s as [|c s IH]; intros skip; cbn [countMatches].
  - rewrite drop_nil. split.
    + destruct term; [|lia]. intros _. by exists [], [].
    + intros (before & after & E & Hm). symmetry in E.
      apply app_eq_nil in E as [_ ->]. by destruct term.
  - destruct skip as [|skip].
    + destruct (matchesHere term (c :: s)) eqn:Em.
      * split; [|pose proof (countMatches_nonneg term s (length term - 1)); lia].
        intros _. by exists [], (c :: s).
      * rewrite IH. split.
        -- intros (before & after & E & Hm). rewrite drop_0 in E.
           exists (c :: before), after. rewrite drop_0.
           split; [by rewrite E|done].
        -- intros (before & after & E & Hm). rewrite drop_0 in E.
           destruct before as [|b before].
           ++ cbn [app] in E. subst after. congruence.
           ++ injection E as _ E. exists before, after. by rewrite drop_0.
    + rewrite IH. done.
Qed.

(** X7: a term is counted in a text exactly when it occurs in it (under
    the canonicalization of the [i] flag), and the count of a non-empty
    term times its length does not exceed the length of the text. *)
Theorem countMatches_occurrences `{Engine} (term text : jsstring) :
  (0 < countMatches term 0 text
   ↔ ∃ before after, text = before ++ after ∧ matchesHere term after = true)
  ∧ 0 ≤ countMatches term 0 text
  ∧ (term ≠ [] → countMatches term 0 text * len term ≤ len text).
Proof.
  split; [apply (countMatches_positive term text 0)|].
  split; [apply countMatches_nonneg|].
  intros Hterm. pose proof (countMatches_bound term text Hterm 0) as Hb.
  pose proof (len_nonneg text). cbn in Hb. lia.
Qed.



Lemma scoreByKeyword_nil `{Engine} documents : scoreByKeyword [] documents = [].
Proof.
  unfold scoreByKeyword. induction documents as [|doc documents IH]; [done|].
  cbn [flat_map]. rewrite IH, app_nil_r.
  induction (chunks doc) as [|c cs IHc]; [done|]. cbn [flat_map]. by rewrite IHc.
Qed.

(** X9: a question without a word of more than two units finds nothing in
    the keyword branch, whatever is stored. *)
Theorem searchDocuments_short_words `{Engine} (o : Outside) (query : jsstring)
    (topK : Z) (w : World) :
  queryWords query = [] →
  hasEmbeddings (storedDocuments w) = false →
  searchDocuments o query topK w = (Ok [], w).
Proof.
  intros Hwords Hemb. rewrite searchDocuments_result. f_equal. f_equal.
  unfold searchBody, mbind, M_bind, bind, getAllDocuments.
  destruct (iterateFailure o 0%nat); [done|].
  rewrite Hemb. unfold liftResult, expandQueryTerms. rewrite Hwords. cbn [fold_left fst].
  rewrite scoreByKeyword_nil. cbn [jsSort]. unfold sliceTo.
  by destruct (topK <? 0); rewrite take_nil.
Qed.

Lemma searchDocuments_short_words_witness :
  queryWords (H := asciiEngine) (str "is it AI") = []
  ∧ hasEmbeddings (storedDocuments (H := asciiEngine) noteWorld) = false
  ∧ searchDocuments (H := asciiEngine) offline (str "is it AI") defaultSearchTopK noteWorld
    = (Ok [], noteWorld).
Proof.
  split; [vm_compute; reflexivity|]. split; [vm_compute; reflexivity|].
  apply (@searchDocuments_short_words asciiEngine); vm_compute; reflexivity.
Defined.

(** ** Escaping a term for the pattern *)

Lemma readEscaped_escapeRegex s : readEscaped false (escapeRegex s) = s.
Proof.
  induction s as [|c s IH]; [done|].
  unfold escapeRegex in *. cbn [flat_map].
  destruct (isRegexSpecial c) eqn:E; cbn [app readEscaped].
  - rewrite N.eqb_refl. by rewrite IH.
  - destruct (c =? backslash)%N eqn:Eb; [|by rewrite IH].
    apply N.eqb_eq in Eb. subst c. done.
Qed.

(** X10: [escapeRegex] loses nothing: reading the escaped pattern back, a
    backslash making the next unit literal, gives the term, so different
    terms have different patterns; a term without special units is left as
    it is, and the pattern is at most twice as long as the term. *)
Theorem escapeRegex_faithful (term other : jsstring) :
  readEscaped false (escapeRegex term) = term
  ∧ (escapeRegex term = escapeRegex other → term = other)
  ∧ (Forall (λ c, isRegexSpecial c = false) term → escapeRegex term = term)
  ∧ len term ≤ len (escapeRegex term) ≤ 2 * len term.
Proof.
  split; [apply readEscaped_escapeRegex|]. split; [|split].
  - intros E. rewrite <- (readEscaped_escapeRegex term), E. apply readEscaped_escapeRegex.
  - intros Hplain. induction Hplain as [|c s Hc _ IH]; [done|].
    unfold escapeRegex in *. cbn [flat_map]. rewrite Hc. cbn [app]. by rewrite IH.
  - unfold len. induction term as [|c s IH]; [done|].
    unfold escapeRegex in *. cbn [flat_map]. rewrite length_app.
    destruct (isRegexSpecial c); cbn [length] in *; lia.
Qed.

(** ** The document store *)

Lemma storedDocuments_elem `{Engine} w doc :
  doc ∈ storedDocuments w ↔ ∃ id, documentsStore w !! id = Some doc.
Proof.
  unfold storedDocuments. rewrite (jsSort_Permutation byUploadTime).
  rewrite list_elem_of_fmap. split.
  - intros ([id d] & -> & Hin). exists id. by apply elem_of_map_to_list in Hin.
  - intros (id & Hid). exists (id, doc). split; [done|]. by apply elem_of_map_to_list.
Qed.



(** X12: a failed upload stores nothing: either the file could not be
    parsed, and then the world is as it was and the error is the parser's,
    or the store refused the document, and the error is the store's. *)
Theorem uploadDocument_failure `{Engine} (o : Outside) (file : File)
    (e : jsstring) (w w' : World) :
  uploadDocument o file w = (Throw e, w') →
  documentsStore w' = documentsStore w
  ∧ ((parseFile file).1 = Throw e ∧ w' = w
     ∨ isOk (parseFile file).1 = true ∧ setItemFailure o = Some e).
Proof.
  unfold uploadDocument, mbind, M_bind, bind, liftResult, setItem.
  destruct (parseFile file).1 as [content | e0] eqn:Hparse.
  - destruct (checkEmbeddingModel_total o w) as [useEmbeddings ->].
    destruct (setItemFailure o) as [e1|]; [|done].
    intros [= <- <-]. split; [done|]. by right.
  - intros [= <- <-]. split; [done|]. by left.
Qed.

Lemma uploadDocument_failure_witness :
  uploadDocument (H := asciiEngine) offline imageFile noteWorld
  = (Throw (str "Unsupported file type: image/png"), noteWorld)
  ∧ documentsStore noteWorld = documentsStore noteWorld
  ∧ ((parseFile (H := asciiEngine) imageFile).1 = Throw (str "Unsupported file type: image/png")
     ∧ noteWorld = noteWorld
     ∨ isOk (parseFile (H := asciiEngine) imageFile).1 = true
       ∧ setItemFailure offline = Some (str "Unsupported file type: image/png")).
Proof.
  split; [vm_compute; reflexivity|].
  apply (@uploadDocument_failure asciiEngine offline imageFile). vm_compute. reflexivity.
Defined.

(** X13: a document that was uploaded can be fetched by its id and is
    among the documents listed; the documents under other ids are as
    before; deleting it again, when its id was not in use, gives back the
    store as it was. *)
Theorem uploadDocument_retrievable `{Engine} (o : Outside) (file : File)
    (document : Document) (w w' : World) :
  uploadDocument o file w = (Ok document, w') →
  getDocument noFaults (docId document) w' = (Ok (Some document), w')
  ∧ document ∈ storedDocuments w'
  ∧ (∀ id, id ≠ docId document →
           (getDocument noFaults id w').1 = (getDocument noFaults id w).1)
  ∧ (documentsStore w !! docId document = None →
     documentsStore (deleteDocument noFaults (docId document) w').2 = documentsStore w).
Proof.
  unfold uploadDocument, mbind, M_bind, bind, liftResult, setItem.
  destruct (parseFile file).1 as [content | e0] eqn:Hparse; [|done].
  destruct (checkEmbeddingModel_total o w) as [useEmbeddings ->].
  destruct (setItemFailure o) as [e1|]; [done|].
  intros [= <- <-]. unfold getDocument, deleteDocument.
  cbn [getItemFailure removeItemFailure noFaults documentsStore docId fst snd].
  split; [by rewrite lookup_insert_eq|]. split.
  { apply storedDocuments_elem. eexists. cbn [documentsStore]. apply lookup_insert_eq. }
  split.
  - intros id Hid. by rewrite lookup_insert_ne.
  - intros Hfresh. by apply delete_insert_id.
Qed.

Lemma uploadDocument_retrievable_witness :
  ∃ document w',
    uploadDocument (H := asciiEngine) offline noteFile emptyWorld = (Ok document, w')
    ∧ getDocument noFaults (docId document) w' = (Ok (Some document), w')
    ∧ document ∈ storedDocuments (H := asciiEngine) w'
    ∧ (∀ id, id ≠ docId document →
             (getDocument noFaults id w').1 = (getDocument noFaults id emptyWorld).1)
    ∧ (documentsStore emptyWorld !! docId document = None →
       documentsStore (deleteDocument noFaults (docId document) w').2
       = documentsStore emptyWorld).
Proof.
  eexists _, _. split; [vm_compute; reflexivity|].
  apply (@uploadDocument_retrievable asciiEngine offline noteFile). vm_compute. reflexivity.
Defined.

(** X14: after [deleteDocument] the id fetches [null], the document under
    it is no longer listed, the documents under other ids are untouched,
    and so is the cached answer about the embedding model; deleting an id
    that is not stored changes nothing. *)
Theorem deleteDocument_removes `{Engine} (f : StoreFaults) (id : jsstring) (w : World) :
  removeItemFailure f = None →
  getItemFailure f = None →
  ∃ w',
    deleteDocument f id w = (Ok tt, w')
    ∧ getDocument f id w' = (Ok None, w')
    ∧ (∀ other, other ≠ id → getDocument f other w' = (Ok (documentsStore w !! other), w'))
    ∧ (∀ doc, doc ∈ storedDocuments w'
              ↔ ∃ other, other ≠ id ∧ documentsStore w !! other = Some doc)
    ∧ embeddingModelAvailable w' = embeddingModelAvailable w
    ∧ (documentsStore w !! id = None → w' = w).
Proof.
  intros Hremove Hget. unfold deleteDocument, getDocument. rewrite Hremove, Hget.
  eexists. split; [reflexivity|]. cbn [documentsStore embeddingModelAvailable].
  split; [by rewrite lookup_delete_eq|]. split.
  { intros other Hother. by rewrite lookup_delete_ne. }
  split.
  { intros doc. rewrite storedDocuments_elem. cbn [documentsStore]. split.
    - intros (other & Hother). exists other.
      destruct (decide (id = other)) as [-> | Hne].
      + by rewrite lookup_delete_eq in Hother.
      + by rewrite lookup_delete_ne in Hother.
    - intros (other & Hne & Hother). exists other. by rewrite lookup_delete_ne. }
  split; [done|].
  intros Hfresh. rewrite delete_id by done. by destruct w.
Qed.

Lemma deleteDocument_removes_witness :
  ∃ w',
    deleteDocument noFaults (str "doc_1_x") noteWorld = (Ok tt, w')
    ∧ getDocument noFaults (str "doc_1_x") w' = (Ok None, w')
    ∧ (∀ other, other ≠ str "doc_1_x" →
                getDocument noFaults other w' = (Ok (documentsStore noteWorld !! other), w'))
    ∧ (∀ doc, doc ∈ storedDocuments (H := asciiEngine) w'
              ↔ ∃ other, other ≠ str "doc_1_x" ∧ documentsStore noteWorld !! other = Some doc)
    ∧ embeddingModelAvailable w' = embeddingModelAvailable noteWorld
    ∧ (documentsStore noteWorld !! str "doc_1_x" = None → w' = noteWorld).
Proof.
  apply (@deleteDocument_removes asciiEngine noFaults (str "doc_1_x") noteWorld);
    reflexivity.
Defined.

(** X15: after [clearAllDocuments] nothing is listed, a search finds
    nothing and [buildRAGContext] hands the question back as it is; the
    cached answer about the embedding model is kept. *)
Theorem clearAllDocuments_empties `{Engine} (f : StoreFaults) (o : Outside)
    (query : jsstring) (topK : Z) (w : World) :
  clearFailure f = None →
  iterateFailure o 0%nat = None →
  ∃ w',
    clearAllDocuments f w = (Ok tt, w')
    ∧ getAllDocuments o w' = (Ok [], w')
    ∧ searchDocuments o query topK w' = (Ok [], w')
    ∧ buildRAGContext o query topK w' = (Ok query, w')
    ∧ embeddingModelAvailable w' = embeddingModelAvailable w.
Proof.
  intros Hclear Hiterate. unfold clearAllDocuments. rewrite Hclear.
  eexists. split; [reflexivity|].
  set (w' := mkWorld ∅ (embeddingModelAvailable w)).
  assert (Hnone : storedDocuments w' = []) by by apply storedDocuments_nil.
  split; [by rewrite getAllDocuments_ok, Hnone|]. split; [|split; [|done]].
  - rewrite searchDocuments_result. f_equal. f_equal.
    unfold searchBody, mbind, M_bind, bind. rewrite getAllDocuments_ok, Hnone by done.
    cbn [hasEmbeddings existsb]. unfold liftResult.
    destruct (expandQueryTerms query) as [terms|]; [|done].
    cbn [scoreByKeyword flat_map jsSort fst mret M_ret ret]. unfold sliceTo.
    by destruct (topK <? 0); rewrite take_nil.
  - unfold buildRAGContext, mbind, M_bind, bind.
    by rewrite getAllDocuments_ok, Hnone by done.
Qed.

Lemma clearAllDocuments_empties_witness :
  ∃ w',
    clearAllDocuments noFaults noteWorld = (Ok tt, w')
    ∧ getAllDocuments (H := asciiEngine) offline w' = (Ok [], w')
    ∧ searchDocuments (H := asciiEngine) offline (str "dell laptop") 5 w' = (Ok [], w')
    ∧ buildRAGContext (H := asciiEngine) offline (str "dell laptop") 5 w'
      = (Ok (str "dell laptop"), w')
    ∧ embeddingModelAvailable w' = embeddingModelAvailable noteWorld.
Proof.
  apply (@clearAllDocuments_empties asciiEngine noFaults offline (str "dell laptop") 5
           noteWorld); reflexivity.
Defined.

(** ** The cached answer about the embedding model *)

Lemma startsWith_prefix (t s : jsstring) : startsWith t s = true ↔ t `prefix_of` s.
Proof.
  unfold startsWith. rewrite bool_decide_eq_true. split.
  - intros E. exists (drop (length t) s). by rewrite <- E at 1; rewrite take_drop.
  - intros [k ->]. by rewrite take_app_length.
Qed.

(** X16: [checkEmbeddingModel] asks the server once.  Its first answer is
    kept, so a later call returns it whatever the server would say by
    then, and the store is not touched.  The first answer is yes exactly
    when the server lists a model named [nomic-embed-text] or one whose
    name starts with [nomic-embed-text:]. *)
Theorem checkEmbeddingModel_cached (o later : Outside) (w : World) :
  ∃ answer w',
    checkEmbeddingModel o w = (Ok answer, w')
    ∧ checkEmbeddingModel later w' = (Ok answer, w')
    ∧ documentsStore w' = documentsStore w
    ∧ embeddingModelAvailable w' = Some answer
    ∧ (embeddingModelAvailable w = None →
       (answer = true
        ↔ ∃ names name,
            tagsRequest o = TagsModels names ∧ name ∈ names
            ∧ (name = EMBEDDING_MODEL ∨ (EMBEDDING_MODEL ++ str ":") `prefix_of` name))).
Proof.
  unfold checkEmbeddingModel. destruct w as [store [available|]];
    cbn [embeddingModelAvailable documentsStore].
  - exists available, (mkWorld store (Some available)). by repeat split.
  - eexists _, _. split; [reflexivity|]. cbn [embeddingModelAvailable documentsStore].
    split; [done|]. split; [done|]. split; [done|]. intros _.
    destruct (tagsRequest o) as [| |names].
    + split; [done|]. by intros (? & ? & ? & _).
    + split; [done|]. by intros (? & ? & ? & _).
    + rewrite existsb_exists. split.
      * intros (name & Hin & Hname). exists names, name. split; [done|].
        split; [by apply list_elem_of_In|].
        apply orb_true_iff in Hname as [Hname | Hname].
        -- left. by apply bool_decide_eq_true in Hname.
        -- right. by apply startsWith_prefix.
      * intros (names' & name & [= <-] & Hin & Hname). exists name.
        split; [by apply list_elem_of_In|]. apply orb_true_iff.
        destruct Hname as [-> | Hname].
        -- left. by apply bool_decide_eq_true.
        -- right. by apply startsWith_prefix.
Qed.

(** ** Where the chunks found come from *)





(** ** The context and its documents *)

Lemma contentsLength_nonneg allDocs : 0 ≤ contentsLength allDocs.
Proof.
  induction allDocs as [|doc rest IH]; cbn [contentsLength fold_right]; [done|].
  fold (contentsLength rest). pose proof (len_nonneg (docContent doc)). lia.
Qed.

Lemma appendDocuments_fit allDocs :
  ∀ context totalLength,
    totalLength + contentsLength allDocs ≤ maxTotalLength - MIN_REMAINING →
    appendDocuments allDocs context totalLength
    = (context ++ fullDocuments allDocs, totalLength + contentsLength allDocs).
Proof.
  induction allDocs as [|doc rest IH]; intros context totalLength Hfit.
  - cbn. by rewrite app_nil_r, Z.add_0_r.
  - cbn [appendDocuments]. cbn [contentsLength fold_right] in *.
    fold (contentsLength rest) in *.
    pose proof (contentsLength_nonneg rest). pose proof (len_nonneg (docContent doc)).
    assert (0 ≤ MIN_REMAINING) by done.
    destruct (maxTotalLength - totalLength <? MIN_REMAINING) eqn:E1;
      [apply Z.ltb_lt in E1; lia|].
    destruct (len (docContent doc) <=? maxTotalLength - totalLength) eqn:E2;
      [|apply Z.leb_gt in E2; lia].
    rewrite IH by lia. unfold fullDocuments. cbn [flat_map].
    f_equal; [|lia]. by rewrite <- !app_assoc.
Qed.

(** X18: when the part before the documents and the contents of all the
    documents together stay 1000 units under the limit, every document is
    in the context in full, in the order listed, each under its header, and
    nothing is cut or left out. *)
Theorem assembleContext_complete (relevantChunks : list DocumentChunk)
    (allDocs : list Document) :
  len (contextBeforeDocuments relevantChunks) + contentsLength allDocs
    ≤ maxTotalLength - MIN_REMAINING →
  assembleContext relevantChunks allDocs
  = (contextBeforeDocuments relevantChunks ++ fullDocuments allDocs,
     len (contextBeforeDocuments relevantChunks) + contentsLength allDocs)
  ∧ Forall (λ doc, Infix (docContent doc) (assembleContext relevantChunks allDocs).1
                   ∧ Infix (docName doc) (assembleContext relevantChunks allDocs).1)
           allDocs.
Proof.
  intros Hfit. unfold assembleContext. cbv zeta. rewrite appendDocuments_fit by done.
  split; [done|]. cbn [fst]. generalize (contextBeforeDocuments relevantChunks) as before.
  clear Hfit. induction allDocs as [|doc rest IH]; intros before; constructor.
  - unfold fullDocuments, fileHeader. cbn [flat_map]. split.
    + exists (before ++ newline :: str "FILE: " ++ docName doc ++ [newline]
                ++ repeatUnit lightBar 40 ++ [newline]),
             ([newline] ++ flat_map (λ doc, (newline :: str "FILE: " ++ docName doc ++ [newline]
                ++ repeatUnit lightBar 40 ++ [newline]) ++ docContent doc ++ [newline]) rest).
      by rewrite <- !app_assoc.
    + exists (before ++ newline :: str "FILE: "),
             ([newline] ++ repeatUnit lightBar 40 ++ [newline] ++ docContent doc ++ [newline]
              ++ flat_map (λ doc, (newline :: str "FILE: " ++ docName doc ++ [newline]
                ++ repeatUnit lightBar 40 ++ [newline]) ++ docContent doc ++ [newline]) rest).
      cbn [app]. rewrite <- !app_assoc. cbn [app]. by rewrite <- !app_assoc.
  - specialize (IH (before ++ fileHeader doc ++ docContent doc ++ [newline])).
    unfold fullDocuments in *. cbn [flat_map].
    rewrite <- !app_assoc in IH. by rewrite <- !app_assoc.
Qed.

Lemma assembleContext_complete_witness :
  len (contextBeforeDocuments []) + contentsLength [noteDocument]
    ≤ maxTotalLength - MIN_REMAINING
  ∧ assembleContext [] [noteDocument]
    = (contextBeforeDocuments [] ++ fullDocuments [noteDocument],
       len (contextBeforeDocuments []) + contentsLength [noteDocument])
  ∧ Forall (λ doc, Infix (docContent doc) (assembleContext [] [noteDocument]).1
                   ∧ Infix (docName doc) (assembleContext [] [noteDocument]).1)
           [noteDocument].
Proof.
  split; [vm_compute; discriminate|].
  apply (assembleContext_complete [] [noteDocument]). vm_compute. discriminate.
Defined.



(** X20: [buildRAGContext] only reads.  It throws exactly when the store
    cannot be listed, with the error of the store.  When the listing
    inside the search fails instead, and something is stored, the prompt
    is built all the same, without the part of the relevant sections. *)
Theorem buildRAGContext_outcome `{Engine} (o : Outside) (query : jsstring) (topK : Z)
    (w : World) :
  (buildRAGContext o query topK w).2 = w
  ∧ (∀ e, (buildRAGContext o query topK w).1 = Throw e ↔ iterateFailure o 0%nat = Some e)
  ∧ (iterateFailure o 0%nat = None → is_Some (iterateFailure o 1%nat) →
     documentsStore w ≠ ∅ →
     (buildRAGContext o query topK w).1
     = Ok (finalContext query (assembleContext [] (storedDocuments w)).1)).
Proof.
  unfold buildRAGContext, mbind, M_bind, bind, getAllDocuments.
  destruct (iterateFailure o 0%nat) as [e0|] eqn:Hiterate.
  - split; [done|]. split; [|done]. intros e. cbn [fst]. split; congruence.
  - destruct (len (storedDocuments w) =? 0) eqn:Hlen.
    + split; [done|]. split; [by intros e|]. intros _ _ Hstore.
      apply Z.eqb_eq in Hlen. destruct (storedDocuments w) eqn:Hdocs; [|done].
      by apply storedDocuments_nil in Hdocs.
    + rewrite searchDocuments_result. cbn [fst snd mret M_ret ret].
      split; [done|]. split; [by intros e|]. intros _ [e1 Hsecond] _.
      unfold searchBody, mbind, M_bind, bind, getAllDocuments.
      cbn [afterIterate iterateFailure]. by rewrite Hsecond.
Qed.

(** ** What the readers return *)

Lemma trim_idempotent s : trim (trim s) = trim s.
Proof.
  destruct (trim_result s) as [-> | [Hstart Hend]]; [done|]. by apply trim_clean.
Qed.

Lemma parsePDF_result file :
  match (parsePDF file).1 with
  | Ok text => MIN_TEXT_LENGTH ≤ len text ∧ trim text = text
  | Throw e => str "Failed to parse PDF: " `prefix_of` e
  end.
Proof.
  unfold parsePDF.
  destruct (pdfDocument file) as [pdf | e]; [|by eexists].
  destruct (extractText pdf []) as [fullText | e]; [|by eexists].
  cbn [app].
  destruct (len (trim fullText) <? MIN_TEXT_LENGTH) eqn:E.
  - destruct (ocrPages _ _ _ _ _) as [[ocrText | e] log]; [|by eexists].
    destruct (len (trim ocrText) <? MIN_TEXT_LENGTH) eqn:E'; [by eexists|].
    apply Z.ltb_ge in E'. split; [done|apply trim_idempotent].
  - apply Z.ltb_ge in E. split; [done|apply trim_idempotent].
Qed.

(** X21: a PDF, a Word document or a workbook is only ever parsed to a
    text whose trimmed form has at least 10 units; the PDF and the workbook
    text come back trimmed, the Word text as the library gave it.  When
    such a reader fails, the error is its own fixed message, for a PDF
    followed by the cause.  A plain text file is returned as it was read. *)
Theorem readerOf_result (format : Format) (file : File) :
  match readerOf format file with
  | Ok text =>
      match format with
      | PlainText => fileText file = Ok text
      | PDF | Excel => 10 ≤ len text ∧ trim text = text
      | DOCX => 10 ≤ len (trim text) ∧ docxRawText file = Ok text
      end
  | Throw e =>
      match format with
      | PlainText => fileText file = Throw e
      | PDF => str "Failed to parse PDF: " `prefix_of` e
      | DOCX =>
          e = str "Failed to parse DOCX file. Please ensure it's a valid Word document."
      | Excel => e = str "Failed to parse Excel file"
      end
  end.
Proof.
  destruct format; cbn [readerOf].
  - by destruct (fileText file).
  - apply parsePDF_result.
  - unfold parseDOCX. destruct (docxRawText file) as [value|]; [|done].
    destruct (negb (truthy value)); cbn [orb]; [done|].
    destruct (len (trim value) <? 10) eqn:E; [done|]. by apply Z.ltb_ge in E.
  - unfold parseExcel. destruct (workbook file) as [sheets|]; [|done].
    cbv zeta. destruct (len (trim _) <? 10) eqn:E; [done|].
    apply Z.ltb_ge in E. split; [done|apply trim_idempotent].
Qed.

(** ** The check of the document manager *)

Lemma orb_false_both (a b : bool) : a || b = false → a = false ∧ b = false.
Proof. by destruct a, b. Qed.

(** X22: a file whose name passes the extension check of the document
    manager is never turned down by [parseFile] as unsupported: it is
    handed to exactly one reader, and what that reader returns or throws
    is the outcome of the parse. *)
Theorem hasValidExtension_parsed `{Engine} (file : File) :
  hasValidExtension (fileName file) = true →
  ∃ format,
    matchesFormat format (fileType file) (toLowerCase (fileName file)) = true
    ∧ readersCalled (parseFile file).2 = [format]
    ∧ (parseFile file).1 = readerOf format file.
Proof.
  unfold hasValidExtension, validExtensions. cbn [map existsb]. intros Hext.
  unfold parseFile. cbv zeta.
  destruct (isTextFile _ _) eqn:Etext; [by exists PlainText|].
  destruct (isPdfFile _ _) eqn:Epdf.
  { exists PDF. split; [done|]. cbn [readerOf].
    pose proof (parsePDF_no_reader file) as Hlog.
    destruct (parsePDF file) as [r log]. cbn [fst snd] in *.
    change (readersCalled (Reader PDF :: log)) with (PDF :: readersCalled log).
    by rewrite Hlog. }
  destruct (isDocxFile _ _) eqn:Edocx; [by exists DOCX|].
  destruct (isExcelFile _ _) eqn:Eexcel; [by exists Excel|].
  exfalso. unfold isTextFile, isPdfFile, isDocxFile, isExcelFile in *.
  repeat match goal with
         | E : _ || _ = false |- _ => apply orb_false_both in E as [? ?]
         end.
  repeat match goal with
         | E : endsWith _ _ = false |- _ => rewrite E in Hext; clear E
         end.
  done.
Qed.

Lemma hasValidExtension_parsed_witness :
  hasValidExtension (H := asciiEngine) (fileName scannedFile) = true
  ∧ ∃ format,
      matchesFormat format (fileType scannedFile)
                    (toLowerCase (Engine := asciiEngine) (fileName scannedFile)) = true
      ∧ readersCalled (parseFile (H := asciiEngine) scannedFile).2 = [format]
      ∧ (parseFile (H := asciiEngine) scannedFile).1 = readerOf format scannedFile.
Proof.
  split; [vm_compute; reflexivity|].
  apply (@hasValidExtension_parsed asciiEngine scannedFile). vm_compute. reflexivity.
Defined.

(** ** The symmetry of the cosine *)

Lemma float_mul_comm (x y : float) : (x * y = y * x)%float.
Proof.
  apply Prim2SF_inj. rewrite !FloatAxioms.mul_spec. unfold SF64mul, SFmul.
  destruct (Prim2SF x) as [sx|sx| |sx mx ex], (Prim2SF y) as [sy|sy| |sy my ey];
    try reflexivity; rewrite (xorb_comm sx sy); try reflexivity.
  by rewrite (Pos.mul_comm mx my), (Z.add_comm ex ey).
Qed.

Lemma cosineSums_swap a :
  ∀ b dotProduct normA normB,
    cosineSums b a (dotProduct, normB, normA)
    = (let '(d, na, nb) := cosineSums a b (dotProduct, normA, normB) in (d, nb, na)).
Proof.
  induction a as [|x a IH]; intros [|y b] d na nb; cbn [cosineSums]; try done.
  rewrite (float_mul_comm y x). apply IH.
Qed.

(** X23: the similarity does not depend on which vector comes first:
    [cosineSimilarity a b] and [cosineSimilarity b a] are the same double,
    whatever the vectors hold and whatever their lengths. *)
Theorem cosineSimilarity_symmetric (a b : vector) :
  cosineSimilarity a b = cosineSimilarity b a.
Proof.
  unfold cosineSimilarity. rewrite (Z.eqb_sym (len b) (len a)).
  destruct (len a =? len b); cbn [negb]; [|done].
  rewrite (cosineSums_swap a b 0 0 0).
  destruct (cosineSums a b (0, 0, 0)%float) as [[d na] nb].
  by rewrite (float_mul_comm (sqrt nb) (sqrt na)).
Qed.

(** ** The parameter count read off a model name *)

Lemma includes_Infix (t s : jsstring) : includes t s = true → Infix t s.
Proof.
  induction s as [|c s IH]; cbn [includes]; intros Hin.
  - rewrite orb_false_r in Hin. apply startsWith_prefix in Hin as [k ->]. by exists [], k.
  - apply orb_true_iff in Hin as [Hin | Hin].
    + apply startsWith_prefix in Hin as [k ->]. by exists [], k.
    + destruct (IH Hin) as (before & after & ->). by exists (c :: before), after.
Qed.

Lemma spanDigits_spec s :
  s = (spanDigits s).1 ++ (spanDigits s).2
  ∧ Forall (λ c, isDigit c = true) (spanDigits s).1.
Proof.
  induction s as [|c s [IH1 IH2]]; cbn [spanDigits]; [by split|].
  destruct (isDigit c) eqn:E; [|by split].
  destruct (spanDigits s) as [digits rest]. cbn [fst snd] in *.
  split; [by rewrite IH1 at 1|by constructor].
Qed.

Lemma isLetterB_not_digit b : isLetterB b = true → isDigit b = false.
Proof.
  unfold isLetterB, isDigit. intros Hb.
  apply orb_true_iff in Hb as [Hb | Hb]; apply N.eqb_eq in Hb; by subst b.
Qed.

Lemma matchParameters_cons_none c name :
  matchParameters (c :: name) = None → matchParameters name = None.
Proof.
  cbn [matchParameters]. destruct (isDigit c); [|done].
  destruct (spanDigits (c :: name)) as [digits [|r rest]]; [done|].
  by destruct (isLetterB r).
Qed.

Lemma matchParameters_none name :
  matchParameters name = None →
  ∀ p d b r, name = p ++ d :: b :: r → isDigit d = true → isLetterB b = false.
Proof.
  induction name as [|c name IH]; intros Hnone p d b r E Hd.
  - by destruct p.
  - destruct p as [|c' p]; cbn [app] in E; injection E as -> ->.
    + cbn [matchParameters spanDigits] in Hnone. rewrite Hd in Hnone.
      destruct (isLetterB b) eqn:Hb; [|done].
      rewrite (isLetterB_not_digit b Hb) in Hnone. by rewrite Hb in Hnone.
    + apply matchParameters_cons_none in Hnone. by apply (IH Hnone p d b r).
Qed.

Lemma matchParameters_some name :
  ∀ digits, matchParameters name = Some digits →
    digits ≠ [] ∧ Forall (λ c, isDigit c = true) digits
    ∧ ∃ p b r, name = p ++ digits ++ b :: r ∧ isLetterB b = true.
Proof.
  induction name as [|c name IH]; intros digits Hsome; [done|].
  assert (Hcases : (isDigit c = true
                    ∧ ∃ b r, spanDigits (c :: name) = (digits, b :: r) ∧ isLetterB b = true)
                   ∨ matchParameters name = Some digits).
  { cbn [matchParameters] in Hsome. destruct (isDigit c) eqn:Hc; [|by right].
    destruct (spanDigits (c :: name)) as [ds [|b r]]; [by right|].
    destruct (isLetterB b) eqn:Hb; [|by right].
    injection Hsome as ->. left. split; [done|]. by exists b, r. }
  destruct Hcases as [(Hc & b & r & Hspan & Hb) | Hrest].
  - destruct (spanDigits_spec (c :: name)) as [Happ Hdigits].
    rewrite Hspan in Happ, Hdigits. cbn [fst snd] in *.
    split; [|split; [done|]].
    + intros ->. cbn [app] in Happ. injection Happ as <- _.
      rewrite (isLetterB_not_digit c Hb) in Hc. done.
    + exists [], b, r. by split.
  - destruct (IH digits Hrest) as (Hne & Hdigits & p & b & r & -> & Hb).
    split; [done|]. split; [done|]. exists (c :: p), b, r. by split.
Qed.

(** X24: [extractParameters] answers with a run of digits of the name
    that is directly followed by [b] or [B], and [B] after it; it answers
    [Unknown] exactly when no digit of the name is followed by [b] or [B].
    So the five tests for [1b], [3b], [7b], [13b] and [70b] that come
    after the pattern never decide. *)
Theorem extractParameters_spec (name : jsstring) :
  (∃ digits p b r,
     name = p ++ digits ++ b :: r
     ∧ digits ≠ [] ∧ Forall (λ c, isDigit c = true) digits ∧ isLetterB b = true
     ∧ extractParameters name = digits ++ str "B")
  ∨ ((∀ p d b r, name = p ++ d :: b :: r → isDigit d = true → isLetterB b = false)
     ∧ extractParameters name = str "Unknown").
Proof.
  unfold extractParameters. destruct (matchParameters name) as [digits|] eqn:Hmatch.
  - left. destruct (matchParameters_some name digits Hmatch)
      as (Hne & Hdigits & p & b & r & Hname & Hb).
    by exists digits, p, b, r.
  - right. pose proof (matchParameters_none name Hmatch) as Hnone. split; [done|].
    assert (Hno : ∀ p d r, isDigit d = true → name ≠ p ++ d :: 98%N :: r).
    { intros p d r Hd E. by pose proof (Hnone p d 98%N r E Hd). }
    destruct (includes (str "1b") name) eqn:E1.
    { apply includes_Infix in E1 as (p & r & E). by destruct (Hno p 49%N r). }
    destruct (includes (str "3b") name) eqn:E3.
    { apply includes_Infix in E3 as (p & r & E). by destruct (Hno p 51%N r). }
    destruct (includes (str "7b") name) eqn:E7.
    { apply includes_Infix in E7 as (p & r & E). by destruct (Hno p 55%N r). }
    destruct (includes (str "13b") name) eqn:E13.
    { apply includes_Infix in E13 as (p & r & E).
      destruct (Hno (p ++ [49%N]) 51%N r); [done|]. by rewrite <- app_assoc. }
    destruct (includes (str "70b") name) eqn:E70.
    { apply includes_Infix in E70 as (p & r & E).
      destruct (Hno (p ++ [55%N]) 48%N r); [done|]. by rewrite <- app_assoc. }
    done.
Qed.

(** ** The tags of a model *)

(** X25: every model gets exactly one of the type tags [code], [vision],
    [embedding] and [chat], never both [small] and [large], and no tag
    twice; a name with [1b] or [2b] in it is tagged [small] even when it
    also names a larger size. *)
Theorem categorizModel_tags `{Engine} (name description : jsstring) :
  let tags := categorizModel name description in
  NoDup tags
  ∧ length (List.filter (λ tag, bool_decide (tag ∈ map str ["code"; "vision"; "embedding";
                                                            "chat"]%string)) tags) = 1%nat
  ∧ ¬ (str "small" ∈ tags ∧ str "large" ∈ tags)
  ∧ (includes (str "1b") (toLowerCase name) || includes (str "2b") (toLowerCase name) = true
     → str "small" ∈ tags ∧ str "large" ∉ tags).
Proof.
  unfold categorizModel. cbv zeta.
  generalize (includes (str "1b") (toLowerCase name)
              || includes (str "2b") (toLowerCase name)),
             (includes (str "70b") (toLowerCase name)
              || includes (str "405b") (toLowerCase name)),
             (includes (str "code") (toLowerCase name)
              || includes (str "code") (toLowerCase description)),
             (includes (str "vision") (toLowerCase name)
              || includes (str "vision") (toLowerCase description)),
             (includes (str "embed") (toLowerCase name)),
             (includes (str "llama3.2") (toLowerCase name)
              || includes (str "mistral") (toLowerCase name)
              || includes (str "phi3") (toLowerCase name)).
  intros [] [] [] [] [] [];
    (split; [apply (bool_decide_unpack _); vm_compute; exact I|]);
    (split; [vm_compute; reflexivity|]);
    (split; [apply (bool_decide_unpack _); vm_compute; exact I|]);
    (intros Hsize; try discriminate Hsize;
     split; apply (bool_decide_unpack _); vm_compute; exact I).
Qed.

(** ** The context built from attachments *)

Lemma Infix_app_l (t l before : jsstring) : Infix t l → Infix t (before ++ l).
Proof.
  intros (before' & after & ->). exists (before ++ before'), after.
  by rewrite <- !app_assoc.
Qed.

Lemma attachmentSections_lookup attachments :
  ∀ index (i : nat) att,
    attachments !! i = Some att →
    Infix (attachmentSection (index + Z.of_nat i) att) (attachmentSections index attachments).
Proof.
  induction attachments as [|first rest IH]; intros index i att Hi; [done|].
  cbn [attachmentSections]. destruct i as [|i].
  - injection Hi as ->. rewrite Z.add_0_r. exists [], (attachmentSections (index + 1) rest).
    done.
  - apply Infix_app_l.
    replace (index + Z.of_nat (S i)) with (index + 1 + Z.of_nat i) by lia.
    by apply IH.
Qed.

Lemma attachmentSections_length attachments :
  ∀ index,
    fold_right (λ att total, len (attContent att) + len (attName att) + total) 0 attachments
    ≤ len (attachmentSections index attachments).
Proof.
  induction attachments as [|att rest IH]; intros index; cbn [attachmentSections fold_right].
  - done.
  - specialize (IH (index + 1)). unfold attachmentSection.
    rewrite !len_app. cbn [app].
    pose proof (len_nonneg (str "--- File ")). pose proof (len_nonneg (ofInt (index + 1))).
    pose proof (len_nonneg (str ": ")). pose proof (len_nonneg (str " ---")).
    change (newline :: attContent att ++ [newline; newline])
      with ([newline] ++ attContent att ++ [newline; newline]).
    rewrite !len_app. pose proof (len_nonneg [newline]).
    pose proof (len_nonneg [newline; newline]). lia.
Qed.

(** X26: without attachments the question goes out as it is.  With
    attachments the context opens with the fixed heading and closes with
    the request and the question, and in between every attachment has its
    section, numbered from 1 in the order given, with its name and its
    whole content: nothing is cut, however long the attachments are. *)
Theorem buildContextFromAttachments_layout (attachments : list Attachment)
    (query : jsstring) :
  (attachments = [] → buildContextFromAttachments attachments query = query)
  ∧ (attachments ≠ [] →
     attachmentsHeader `prefix_of` buildContextFromAttachments attachments query
     ∧ (attachmentsRule ++ attachmentsRequest ++ query)
         `suffix_of` buildContextFromAttachments attachments query
     ∧ (∀ (i : nat) att, attachments !! i = Some att →
          Infix (attachmentSection (Z.of_nat i) att)
                (buildContextFromAttachments attachments query))
     ∧ fold_right (λ att total, len (attContent att) + len (attName att) + total) 0
                  attachments
       ≤ len (buildContextFromAttachments attachments query)).
Proof.
  unfold buildContextFromAttachments. split; [by intros ->|].
  intros Hsome. destruct attachments as [|att rest] eqn:E; [done|]. rewrite <- E in *.
  assert ((len attachments =? 0) = false) as ->.
  { rewrite E. apply Z.eqb_neq. unfold len. cbn [length]. lia. }
  split; [by eexists|]. split.
  { exists (attachmentsHeader ++ attachmentSections 0 attachments).
    by rewrite <- !app_assoc. }
  split.
  - intros i a Hi. apply Infix_app_l, Infix_app_r.
    by apply (attachmentSections_lookup attachments 0 i a).
  - rewrite !len_app. pose proof (attachmentSections_length attachments 0).
    pose proof (len_nonneg attachmentsHeader). pose proof (len_nonneg attachmentsRule).
    pose proof (len_nonneg attachmentsRequest). pose proof (len_nonneg query). lia.
Qed.

(** ** How many chunks a search returns *)






(** ** The ids of the chunks *)

Lemma str_inj (s t : string) : str s = str t → s = t.
Proof.
  unfold str. intros E.
  rewrite <- (string_of_list_ascii_of_string s), <- (string_of_list_ascii_of_string t).
  f_equal. revert E. generalize (list_ascii_of_string t).
  induction (list_ascii_of_string s) as [|a l IH]; intros [|b l'] E; try done.
  cbn [map] in E. injection E as Ea El. f_equal; [|by apply IH].
  by rewrite <- (ascii_N_embedding a), <- (ascii_N_embedding b), Ea.
Qed.

Lemma to_int_nonnil (n : Z) : Z.to_int n ≠ Decimal.Pos Decimal.Nil
                              ∧ Z.to_int n ≠ Decimal.Neg Decimal.Nil.
Proof.
  destruct n as [|p|p]; cbn [Z.to_int]; (split; [|]); try done;
    intros [= E]; by apply DecimalPos.Unsigned.to_uint_nonnil in E.
Qed.

Lemma ofInt_inj (a b : Z) : ofInt a = ofInt b → a = b.
Proof.
  unfold ofInt. intros E. apply str_inj in E.
  apply DecimalZ.to_int_inj.
  apply (f_equal NilZero.int_of_string) in E.
  destruct (to_int_nonnil a), (to_int_nonnil b).
  rewrite !NilZero.isi in E by done. by injection E.
Qed.

Lemma embedChunks_ids o useEmbeddings ident textChunks :
  ∀ i, map chunkId (embedChunks o useEmbeddings ident textChunks i)
       = map (λ k, ident ++ str "_chunk_" ++ ofInt (Z.of_nat k))
             (seq i (length textChunks)).
Proof.
  induction textChunks as [|text rest IH]; intros i; [done|].
  cbn [embedChunks length seq map]. rewrite IH. f_equal.
  destruct useEmbeddings; [|done]. by destruct (embeddingRequest o i text).
Qed.

Lemma embedChunks_id_lookup o useEmbeddings ident textChunks :
  ∀ i (k : nat) c,
    embedChunks o useEmbeddings ident textChunks i !! k = Some c →
    chunkId c = ident ++ str "_chunk_" ++ ofInt (Z.of_nat (i + k)).
Proof.
  induction textChunks as [|text rest IH]; intros i k c Hc; [done|].
  cbn [embedChunks] in Hc. destruct k as [|k].
  - injection Hc as <-. rewrite Nat.add_0_r.
    destruct useEmbeddings; [|done]. by destruct (embeddingRequest o i text).
  - apply IH in Hc. by replace (i + S k)%nat with (S i + k)%nat by lia.
Qed.

(** X28: the chunks of an uploaded document have ids of their own: the
    id of the document, [_chunk_] and the index of the chunk, and no two
    chunks of the document share an id. *)
Theorem uploadDocument_chunk_ids `{Engine} (o : Outside) (file : File)
    (document : Document) (w w' : World) :
  uploadDocument o file w = (Ok document, w') →
  NoDup (map chunkId (chunks document))
  ∧ ∀ (i : nat) c, chunks document !! i = Some c →
      chunkId c = docId document ++ str "_chunk_" ++ ofInt (Z.of_nat i)
      ∧ documentId c = docId document.
Proof.
  unfold uploadDocument, mbind, M_bind, bind, liftResult, setItem.
  set (ident := str "doc_" ++ ofInt (dateNow o) ++ str "_" ++ randomSuffix o).
  clearbody ident.
  destruct (parseFile file).1 as [content | e0]; [|done].
  destruct (checkEmbeddingModel_total o w) as [useEmbeddings ->].
  destruct (setItemFailure o) as [e1|]; [done|].
  intros [= <- <-]. cbn [chunks docId]. split.
  - rewrite embedChunks_ids. apply NoDup_fmap_2; [|apply NoDup_seq].
    intros j k E. apply app_inv_head, app_inv_head, ofInt_inj in E. lia.
  - intros i c Hc. split.
    + by apply embedChunks_id_lookup in Hc.
    + by apply embedChunks_lookup in Hc as (_ & _ & ?).
Qed.

Lemma uploadDocument_chunk_ids_witness :
  ∃ document w',
    uploadDocument (H := asciiEngine) flaky noteFile emptyWorld = (Ok document, w')
    ∧ NoDup (map chunkId (chunks document))
    ∧ ∀ (i : nat) c, chunks document !! i = Some c →
        chunkId c = docId document ++ str "_chunk_" ++ ofInt (Z.of_nat i)
        ∧ documentId c = docId document.
Proof.
  eexists _, _. split; [vm_compute; reflexivity|].
  eapply (@uploadDocument_chunk_ids asciiEngine flaky noteFile _ emptyWorld).
  vm_compute. reflexivity.
Defined.
